(** * Virtual physics lab: the numeric estimation engine of script.js

    A shallow embedding of the numeric core of [script.js]: the
    least-squares routine [linearRegression], the simple-pendulum session
    ([sp_addReading], [sp_updateUI]) and the flywheel session
    ([fw_setFlywheelModel], [fw_addReading], [fw_updateUI]).

    Number model.  The script computes with JavaScript numbers.  Here a
    number is a real ([R]): arithmetic is exact, without rounding and without
    overflow.  The non-finite values of JavaScript have no counterpart in [R],
    so
    - a text field read with [parseFloat] is an [option R], [None] standing
      for [NaN] (the script tests it with [isNaN]);
    - the model agrees with the script where every divisor the script does
      not test is non-zero and every square root has a non-negative
      argument; the round-trip statements state these conditions on the
      controls as hypotheses.
    [Math.random()] is an input of the functions that call it, a real in
    [[0,1)].

    Module [F64] embeds [linearRegression] and [fw_addReading] a second time
    over binary64 numbers, with the rounding, the infinities and the NaN of
    the script; it evaluates, and it is where the two tests that exact
    arithmetic cannot fail, [denominator === 0] and [I_calc <= 0], are
    examined on inputs that make them fail. *)

From Stdlib Require Import String.
From Stdlib Require Import Reals Lra Lia ZArith List Sorted Permutation.
From Stdlib Require PrimFloat.
Import ListNotations.

Open Scope R_scope.

(** ** Utility functions *)

(** The object returned by [linearRegression]. *)
Record RegressionResult : Type := mkRegression {
  slope : R;
  intercept : R;
  r2 : R
}.

(** The five accumulators of the summation loop. *)
Record Sums : Type := mkSums {
  sum_x : R;
  sum_y : R;
  sum_xy : R;
  sum_xx : R;
  sum_yy : R
}.

Definition sums_zero : Sums := mkSums 0 0 0 0 0.

(** One iteration of [for (let i = 0; i < n; i++)]: the reads [x[i]] and
    [y[i]].  Every index visited is below [x.length]; [y] has the same length
    (precondition of the routine, met by both call sites, which build the two
    arrays by [map] over the same readings). *)
Definition loop_body (x y : list R) (acc : Sums) (i : nat) : Sums :=
  let xi := nth i x 0 in
  let yi := nth i y 0 in
  mkSums (sum_x acc + xi) (sum_y acc + yi) (sum_xy acc + xi * yi)
         (sum_xx acc + xi * xi) (sum_yy acc + yi * yi).

Definition regression_sums (x y : list R) : Sums :=
  fold_left (loop_body x y) (seq 0 (length x)) sums_zero.

Definition neutral_fit : RegressionResult := mkRegression 0 0 0.

Definition linearRegression (x y : list R) : RegressionResult :=
  let n := length x in
  if Nat.eqb n 0 then neutral_fit else
  let s := regression_sums x y in
  let denominator := INR n * sum_xx s - sum_x s * sum_x s in
  if Req_dec_T denominator 0 then neutral_fit else
  let slope := (INR n * sum_xy s - sum_x s * sum_y s) / denominator in
  let intercept := (sum_y s - slope * sum_x s) / INR n in
  let r2_denominator :=
    sqrt ((INR n * sum_xx s - sum_x s * sum_x s)
          * (INR n * sum_yy s - sum_y s * sum_y s)) in
  let r2 :=
    if Req_dec_T r2_denominator 0 then 1
    else ((INR n * sum_xy s - sum_x s * sum_y s) / r2_denominator) ^ 2 in
  mkRegression slope intercept r2.

(** ** The sums of the specification *)

(** [Sigma l] is the mathematical sum of a finite sequence, and [prods] the
    termwise products, so that [Sigma (prods x y)] reads "Sum(xy)". *)
Definition Sigma (l : list R) : R := fold_right Rplus 0 l.

Fixpoint prods (x y : list R) : list R :=
  match x, y with
  | a :: x', b :: y' => a * b :: prods x' y'
  | _, _ => []
  end.

(** Numerator and denominators of the textbook formulas. *)
Definition cov_term (x y : list R) : R :=
  INR (length x) * Sigma (prods x y) - Sigma x * Sigma y.

Definition var_term (x : list R) : R :=
  INR (length x) * Sigma (prods x x) - Sigma x * Sigma x.

(** The coefficient of determination as the specification writes it. *)
Definition r2_formula (x y : list R) : R :=
  if Req_dec_T (sqrt (var_term x * var_term y)) 0 then 1
  else (cov_term x y / sqrt (var_term x * var_term y)) ^ 2.

(** Two auxiliary sequences of the Cauchy-Schwarz argument: the termwise
    combination [t * x_i + y_i], and the squared distances to a point [a]. *)
Fixpoint lincomb (t : R) (x y : list R) : list R :=
  match x, y with
  | a :: x', b :: y' => t * a + b :: lincomb t x' y'
  | _, _ => []
  end.

Definition sq_dev (a : R) (x : list R) : R :=
  Sigma (map (fun z => (z - a) * (z - a)) x).

(** ** Experiment 1: simple pendulum *)

(** [sp_state.mode] and [fw_state.mode]: the strings ['simulation'] and
    ['manual']. *)
Inductive Mode : Type := simulation | manual.

(** One element of [sp_state.readings]: [{ sno, L, t, T, T2 }]. *)
Record sp_reading : Type := mk_sp_reading {
  sp_sno : nat;
  sp_L : R;
  sp_t : R;
  sp_T : R;
  sp_T2 : R
}.

(** The fields of [sp_state] that the computation reads and writes. *)
Record sp_state : Type := mk_sp_state {
  sp_readings : list sp_reading;
  sp_mode : Mode;
  sp_gravity : R
}.

(** The value of the environment selector: ['unknown'] or the text of a
    number, read with [parseFloat]. *)
Inductive Environment : Type :=
| env_unknown
| env_fixed (g : R).

(** The controls read by [sp_addReading]: the two sliders, always numeric, and
    the two text fields of the manual mode, [None] when [parseFloat] gives
    [NaN]. *)
Record sp_dom : Type := mk_sp_dom {
  oscillationsSlider : Z;
  lengthSlider : R;
  manualLengthInput : option R;
  manualTimeInput : option R
}.

Definition sp_setMode (mode : Mode) (s : sp_state) : sp_state :=
  mk_sp_state (sp_readings s) mode (sp_gravity s).

(** [rnd] is the value of [Math.random()]. *)
Definition sp_setSimulationGravity (envVal : Environment) (rnd : R)
    (s : sp_state) : sp_state :=
  mk_sp_state (sp_readings s) (sp_mode s)
    (match envVal with
     | env_unknown => 5 + rnd * 15
     | env_fixed g => g
     end).

(** [initPendulumExperiment]: a fresh state, the selector forced to
    ['unknown'], then [sp_setMode] and [sp_setSimulationGravity]. *)
Definition initPendulumExperiment (rnd : R) : sp_state :=
  sp_setSimulationGravity env_unknown rnd
    (sp_setMode simulation (mk_sp_state [] simulation 0)).

(** The listener of the environment selector. *)
Definition sp_environmentChange (envVal : Environment) (rnd : R)
    (s : sp_state) : sp_state :=
  sp_setSimulationGravity envVal rnd
    (mk_sp_state [] (sp_mode s) (sp_gravity s)).

Definition sp_invalid_msg : string := "Please enter valid positive numbers.".
Definition sp_duplicate_msg : string :=
  "A reading for this length already exists.".

(** First half of [sp_addReading]: the length and the measured time, either
    synthesised from the period law or read from the manual fields. *)
Definition sp_measure (D : sp_dom) (rnd : R) (s : sp_state)
    : string + (R * R) :=
  let n := IZR (oscillationsSlider D) in
  match sp_mode s with
  | simulation =>
      let L := lengthSlider D in
      let T_theoretical := 2 * PI * sqrt (L / sp_gravity s) in
      let t_measured := (n * T_theoretical) * (1 + (rnd - 0.5) * 0.04) in
      inr (L, t_measured)
  | manual =>
      match manualLengthInput D, manualTimeInput D with
      | Some L, Some t_measured =>
          if Rle_dec L 0 then inl sp_invalid_msg
          else if Rle_dec t_measured 0 then inl sp_invalid_msg
          else inr (L, t_measured)
      | _, _ => inl sp_invalid_msg
      end
  end.

(** [readings.some(r => r.L === L)]. *)
Definition sp_has_length (L : R) (rs : list sp_reading) : bool :=
  existsb (fun r => if Req_dec_T (sp_L r) L then true else false) rs.

(** [readings.sort((a, b) => a.L - b.L)]: a stable sort by the comparator;
    [a] stays in front of [b] when [a.L - b.L <= 0]. *)
Fixpoint sp_insert (a : sp_reading) (rs : list sp_reading)
    : list sp_reading :=
  match rs with
  | [] => [a]
  | b :: rs' =>
      if Rle_dec (sp_L a - sp_L b) 0 then a :: b :: rs'
      else b :: sp_insert a rs'
  end.

Fixpoint sp_sort (rs : list sp_reading) : list sp_reading :=
  match rs with
  | [] => []
  | a :: rs' => sp_insert a (sp_sort rs')
  end.

(** [forEach((r, i) => r.sno = i + 1)], from index [i] on. *)
Fixpoint sp_renumber (i : nat) (rs : list sp_reading) : list sp_reading :=
  match rs with
  | [] => []
  | r :: rs' =>
      mk_sp_reading (i + 1) (sp_L r) (sp_t r) (sp_T r) (sp_T2 r)
        :: sp_renumber (S i) rs'
  end.

(** [sp_addReading]: the new state and the notification shown, if any. *)
Definition sp_addReading (D : sp_dom) (rnd : R) (s : sp_state)
    : sp_state * option string :=
  let n := IZR (oscillationsSlider D) in
  match sp_measure D rnd s with
  | inl msg => (s, Some msg)
  | inr (L, t_measured) =>
      if sp_has_length L (sp_readings s) then (s, Some sp_duplicate_msg)
      else
        let T := t_measured / n in
        let pushed :=
          sp_readings s ++ [mk_sp_reading 0 L t_measured T (T * T)] in
        (mk_sp_state (sp_renumber 0 (sp_sort pushed)) (sp_mode s)
           (sp_gravity s), None)
  end.

(** The numbers shown by [sp_updateUI]: nothing below two readings, else the
    fitted slope, [g_exp] and [r2]. *)
Record sp_result : Type := mk_sp_result {
  res_slope : R;
  g_exp : R;
  res_r2 : R
}.

Definition sp_updateUI (s : sp_state) : option sp_result :=
  if (length (sp_readings s) <? 2)%nat then None
  else
    let fit := linearRegression (map sp_T2 (sp_readings s))
                                (map sp_L (sp_readings s)) in
    Some (mk_sp_result (slope fit) (slope fit * 4 * PI * PI) (r2 fit)).

(** What the user can do in the pendulum view. *)
Inductive sp_event : Type :=
| SpReset (rnd : R)
| SpSetMode (mode : Mode)
| SpEnvironment (envVal : Environment) (rnd : R)
| SpAddReading (D : sp_dom) (rnd : R).

Definition sp_step (s : sp_state) (e : sp_event) : sp_state :=
  match e with
  | SpReset rnd => initPendulumExperiment rnd
  | SpSetMode mode => sp_setMode mode s
  | SpEnvironment envVal rnd => sp_environmentChange envVal rnd s
  | SpAddReading D rnd => fst (sp_addReading D rnd s)
  end.

(** The states of a pendulum session: it is opened by
    [initPendulumExperiment], which installs the listeners. *)
Inductive sp_reachable : sp_state -> Prop :=
| sp_reach_init (rnd : R) : sp_reachable (initPendulumExperiment rnd)
| sp_reach_step (s : sp_state) (e : sp_event) :
    sp_reachable s -> sp_reachable (sp_step s e).

(** The reading-set invariant of the specification. *)
Definition sp_ascending (rs : list sp_reading) : Prop :=
  Sorted Rle (map sp_L rs).

Definition sp_distinct (rs : list sp_reading) : Prop :=
  NoDup (map sp_L rs).

Definition sp_numbered (rs : list sp_reading) : Prop :=
  map sp_sno rs = seq 1 (length rs).

(** ** Experiment 2: flywheel *)

Definition G_ACCELERATION : R := 9.81.

(** An entry of [FLYWHEEL_MODELS]: [{ I, Tf }]. *)
Record FlywheelModel : Type := mk_model {
  model_I : R;
  model_Tf : R
}.

Inductive ModelKey : Type := key_A | key_B | key_unknown.

(** The table [FLYWHEEL_MODELS]; its ['unknown'] entry is overwritten by
    [fw_setFlywheelModel]. *)
Record ModelTable : Type := mk_table {
  entry_A : FlywheelModel;
  entry_B : FlywheelModel;
  entry_unknown : FlywheelModel
}.

Definition FLYWHEEL_MODELS : ModelTable :=
  mk_table (mk_model 0.005 0.002) (mk_model 0.015 0.004) (mk_model 0 0).

Definition table_get (tbl : ModelTable) (k : ModelKey) : FlywheelModel :=
  match k with
  | key_A => entry_A tbl
  | key_B => entry_B tbl
  | key_unknown => entry_unknown tbl
  end.

(** One element of [fw_state.readings]: [{ m, h, t, n2, I }]. *)
Record fw_reading : Type := mk_fw_reading {
  fw_m : R;
  fw_h : R;
  fw_t : R;
  fw_n2 : R;
  fw_I : R
}.

(** The table and the fields of [fw_state] used by the computation.
    [fw_state.model] is the table entry under [fw_key]. *)
Record fw_state : Type := mk_fw_state {
  fw_table : ModelTable;
  fw_readings : list fw_reading;
  fw_mode : Mode;
  fw_key : ModelKey
}.

Definition fw_model (s : fw_state) : FlywheelModel :=
  table_get (fw_table s) (fw_key s).

(** The controls read by [fw_addReading]. *)
Record fw_dom : Type := mk_fw_dom {
  radiusSlider : R;
  n1Slider : Z;
  massSlider : R;
  manualMass : option R;
  manualT : option R;
  manualN2 : option R
}.

Definition fw_setMode (mode : Mode) (s : fw_state) : fw_state :=
  mk_fw_state (fw_table s) (fw_readings s) mode (fw_key s).

(** [rnd1] and [rnd2] are the two values of [Math.random()], used for the
    ['unknown'] model only. *)
Definition fw_setFlywheelModel (modelKey : ModelKey) (rnd1 rnd2 : R)
    (s : fw_state) : fw_state :=
  let tbl :=
    match modelKey with
    | key_unknown =>
        mk_table (entry_A (fw_table s)) (entry_B (fw_table s))
          (mk_model (0.003 + rnd1 * 0.015) (0.001 + rnd2 * 0.005))
    | _ => fw_table s
    end in
  mk_fw_state tbl (fw_readings s) (fw_mode s) modelKey.

(** [initFlywheelExperiment] over the table as it stands; [modelKey] is the
    value the selector has at that moment. *)
Definition initFlywheelExperiment (tbl : ModelTable) (modelKey : ModelKey)
    (rnd1 rnd2 : R) : fw_state :=
  fw_setFlywheelModel modelKey rnd1 rnd2
    (fw_setMode simulation (mk_fw_state tbl [] simulation modelKey)).

(** The listener of the model selector. *)
Definition fw_modelChange (modelKey : ModelKey) (rnd1 rnd2 : R)
    (s : fw_state) : fw_state :=
  fw_setFlywheelModel modelKey rnd1 rnd2
    (mk_fw_state (fw_table s) [] (fw_mode s) (fw_key s)).

Definition fw_light_msg : string := "Mass is too light.".
Definition fw_invalid_msg : string := "Please enter valid positive numbers.".
Definition fw_params_msg : string := "Invalid parameters.".
Definition fw_nonphysical_msg : string := "Non-physical result. Check inputs.".

Section FlywheelEngine.

(** The gravity constant used by both halves of [fw_addReading]; the script
    fixes it to [G_ACCELERATION]. *)
Variable g : R.

(** The linear acceleration of the falling mass. *)
Definition fw_acceleration (m_kg r_m I Tf : R) : R :=
  (m_kg * g - Tf / r_m) / (m_kg + I / (r_m * r_m)).

(** The simulation branch after the test on [a], before the random error:
    fall time, rotations after the fall, and [omega]. *)
Definition fw_simulateFall (r_m h I Tf a : R) : R * R * R :=
  let t := sqrt (2 * h / a) in
  let omega := (a * t) / r_m in
  let theta_after := (I * omega * omega) / (2 * Tf) in
  let n2 := theta_after / (2 * PI) in
  (t, n2, omega).

(** First half of [fw_addReading]: mass, fall time and rotations after the
    fall, synthesised or read from the manual fields. *)
Definition fw_measure (D : fw_dom) (rnd1 rnd2 : R) (s : fw_state)
    : string + (R * R * R) :=
  let r_m := radiusSlider D / 100 in
  let n1 := IZR (n1Slider D) in
  let h := 2 * PI * r_m * n1 in
  match fw_mode s with
  | simulation =>
      let m_kg := massSlider D / 1000 in
      let I := model_I (fw_model s) in
      let Tf := model_Tf (fw_model s) in
      let a := fw_acceleration m_kg r_m I Tf in
      if Rle_dec a 0 then inl fw_light_msg
      else
        let '(t, n2, _) := fw_simulateFall r_m h I Tf a in
        inr (m_kg, t * (1 + (rnd1 - 0.5) * 0.03),
             n2 * (1 + (rnd2 - 0.5) * 0.03))
  | manual =>
      match manualMass D, manualT D, manualN2 D with
      | Some mass, Some t, Some n2 =>
          let m_kg := mass / 1000 in
          if Rle_dec m_kg 0 then inl fw_invalid_msg
          else if Rle_dec t 0 then inl fw_invalid_msg
          else if Rle_dec n2 0 then inl fw_invalid_msg
          else inr (m_kg, t, n2)
      | _, _, _ => inl fw_invalid_msg
      end
  end.

(** The two terms of the inverse formula. *)
Definition fw_term1 (h n1 n2 : R) : R := 2 * h * (n1 + n2).

Definition fw_term2 (m_kg r_m h t n2 : R) : R :=
  m_kg * r_m * r_m * (g * t * t - 2 * h) * n2.

(** Second half of [fw_addReading]: the inverse formula with its two
    guards; [inr I_calc] when both pass. *)
Definition fw_estimateInertia (m_kg r_m n1 t n2 : R) : string + R :=
  let h := 2 * PI * r_m * n1 in
  let term1 := fw_term1 h n1 n2 in
  let term2 := fw_term2 m_kg r_m h t n2 in
  if Req_dec_T term1 0 then inl fw_params_msg
  else
    let I_calc := term2 / term1 in
    if Rle_dec I_calc 0 then inl fw_nonphysical_msg
    else inr I_calc.

Definition fw_addReading_at (D : fw_dom) (rnd1 rnd2 : R) (s : fw_state)
    : fw_state * option string :=
  let r_m := radiusSlider D / 100 in
  let n1 := IZR (n1Slider D) in
  let h := 2 * PI * r_m * n1 in
  match fw_measure D rnd1 rnd2 s with
  | inl msg => (s, Some msg)
  | inr (m_kg, t, n2) =>
      match fw_estimateInertia m_kg r_m n1 t n2 with
      | inl msg => (s, Some msg)
      | inr I_calc =>
          (mk_fw_state (fw_table s)
             (fw_readings s ++ [mk_fw_reading m_kg h t n2 I_calc])
             (fw_mode s) (fw_key s), None)
      end
  end.

End FlywheelEngine.

(** [fw_addReading] as the script has it. *)
Definition fw_addReading : fw_dom -> R -> R -> fw_state
    -> fw_state * option string :=
  fw_addReading_at G_ACCELERATION.

(** What the user can do in the flywheel view. *)
Inductive fw_event : Type :=
| FwReset (modelKey : ModelKey) (rnd1 rnd2 : R)
| FwSetMode (mode : Mode)
| FwModel (modelKey : ModelKey) (rnd1 rnd2 : R)
| FwAddReading (D : fw_dom) (rnd1 rnd2 : R).

Definition fw_step (s : fw_state) (e : fw_event) : fw_state :=
  match e with
  | FwReset k rnd1 rnd2 => initFlywheelExperiment (fw_table s) k rnd1 rnd2
  | FwSetMode mode => fw_setMode mode s
  | FwModel k rnd1 rnd2 => fw_modelChange k rnd1 rnd2 s
  | FwAddReading D rnd1 rnd2 => fst (fw_addReading D rnd1 rnd2 s)
  end.

(** [Math.random()] returns a number of [[0,1)]. *)
Definition is_random (u : R) : Prop := 0 <= u < 1.

(** The sliders of the flywheel view hold physical magnitudes: a positive
    mass, a positive axle radius, a non-negative number of windings.  (The
    page that fixes their ranges is not part of the script.) *)
Definition fw_sliders_ok (D : fw_dom) : Prop :=
  0 < massSlider D /\ 0 < radiusSlider D /\ (0 <= n1Slider D)%Z.

Definition fw_event_ok (e : fw_event) : Prop :=
  match e with
  | FwReset _ rnd1 rnd2 => is_random rnd1 /\ is_random rnd2
  | FwSetMode _ => True
  | FwModel _ rnd1 rnd2 => is_random rnd1 /\ is_random rnd2
  | FwAddReading D rnd1 rnd2 =>
      is_random rnd1 /\ is_random rnd2 /\ fw_sliders_ok D
  end.

(** The states of a flywheel session: it is opened by
    [initFlywheelExperiment] over the table as declared. *)
Inductive fw_reachable : fw_state -> Prop :=
| fw_reach_init (k : ModelKey) (rnd1 rnd2 : R) :
    is_random rnd1 -> is_random rnd2 ->
    fw_reachable (initFlywheelExperiment FLYWHEEL_MODELS k rnd1 rnd2)
| fw_reach_step (s : fw_state) (e : fw_event) :
    fw_reachable s -> fw_event_ok e -> fw_reachable (fw_step s e).


(** ** The display side of the two experiments *)



(** The measured data of a reading, its sequence number left aside. *)
Definition sp_data (r : sp_reading) : R * R * R * R :=
  (sp_L r, sp_t r, sp_T r, sp_T2 r).

(** The manual fields of the pendulum fail the test
    [isNaN(L) || isNaN(t_measured) || L <= 0 || t_measured <= 0]. *)
Definition sp_manual_invalid (D : sp_dom) : Prop :=
  match manualLengthInput D, manualTimeInput D with
  | Some L, Some t_measured => L <= 0 \/ t_measured <= 0
  | _, _ => True
  end.

(** The readings obey the period law for the gravity [g]:
    [T2 = 4 pi^2 L / g]. *)
Definition sp_on_law (g : R) (rs : list sp_reading) : Prop :=
  forall r : sp_reading, In r rs -> sp_T2 r = 4 * PI * PI * (sp_L r / g).

(** [Math.min(...xVals)] and [Math.max(...xVals)] on a non-empty array, given
    as its first element and the rest. *)
Definition Math_min (x0 : R) (xs : list R) : R := fold_left Rmin xs x0.
Definition Math_max (x0 : R) (xs : list R) : R := fold_left Rmax xs x0.

(** The best-fit dataset that [sp_updateUI] hands to the chart: empty below
    two readings, else the two end points of the fitted line. *)
Definition sp_bestFit (s : sp_state) : list (R * R) :=
  if (2 <=? length (sp_readings s))%nat then
    let fit := linearRegression (map sp_T2 (sp_readings s))
                                (map sp_L (sp_readings s)) in
    match map sp_T2 (sp_readings s) with
    | [] => []
    | x0 :: xs =>
        let minX := Math_min x0 xs in
        let maxX := Math_max x0 xs in
        [(minX, slope fit * minX + intercept fit);
         (maxX, slope fit * maxX + intercept fit)]
    end
  else [].

(** [sp_updatePendulumAnimation]: nothing when the gravity is not positive,
    else the height of the rod in pixels and the duration of one swing. *)
Definition sp_updatePendulumAnimation (D : sp_dom) (s : sp_state)
    : option (R * R) :=
  let L := lengthSlider D in
  if Rle_dec (sp_gravity s) 0 then None
  else
    let rodHeight := 100 + (L - 0.5) * (150 / 2.0) in
    Some (rodHeight, 2 * PI * sqrt (L / sp_gravity s)).

(** Events of a pendulum session with their inputs in range: a random draw
    is in [[0,1)], and a named environment has a positive gravity. *)
Definition sp_event_ok (e : sp_event) : Prop :=
  match e with
  | SpReset rnd => is_random rnd
  | SpSetMode _ => True
  | SpEnvironment env_unknown rnd => is_random rnd
  | SpEnvironment (env_fixed g) _ => 0 < g
  | SpAddReading _ rnd => is_random rnd
  end.

Definition sp_run (s : sp_state) (es : list sp_event) : sp_state :=
  fold_left sp_step es s.

(** The manual fields of the flywheel fail the test
    [isNaN(m_kg) || isNaN(t) || isNaN(n2) || m_kg <= 0 || t <= 0 || n2 <= 0]. *)
Definition fw_manual_invalid (D : fw_dom) : Prop :=
  match manualMass D, manualT D, manualN2 D with
  | Some mass, Some t, Some n2 => mass / 1000 <= 0 \/ t <= 0 \/ n2 <= 0
  | _, _, _ => True
  end.

(** The average shown by [fw_updateUI]: nothing without readings, else
    [sumI / readings.length]. *)
Definition fw_updateUI (s : fw_state) : option R :=
  match fw_readings s with
  | [] => None
  | _ :: _ =>
      let sumI := fold_left (fun acc r => acc + fw_I r) (fw_readings s) 0 in
      Some (sumI / INR (length (fw_readings s)))
  end.

(** The numbers [fw_animate] hands to the two animations: the final offset
    of the mass, the duration of its fall, the rotation of the wheel in
    degrees and the duration of that rotation, both durations in ms. *)
Record fw_animation : Type := mk_fw_animation {
  final_pos : R;
  mass_duration : R;
  wheel_degrees : R;
  wheel_duration : R
}.

Definition fw_animate (D : fw_dom) (t_fall n2 omega_max : R)
    : fw_animation :=
  let r_m := radiusSlider D / 100 in
  let n1 := IZR (n1Slider D) in
  let h := 2 * PI * r_m * n1 in
  let final_pos := (h / (r_m * 0.1)) + 20 in
  let t_stop :=
    if Rlt_dec 0 omega_max then (2 * n2 * 2 * PI) / omega_max else 0 in
  mk_fw_animation final_pos (t_fall * 1000) (360 * (n1 + n2))
    ((t_fall + t_stop) * 1000).

(** A flywheel session as a run of events from a state. *)
Definition fw_run (s : fw_state) (es : list fw_event) : fw_state :=
  fold_left fw_step es s.

(** ** The same code over binary64 numbers *)

Module F64.

Import PrimFloat.
Local Open Scope float_scope.

(** [isNaN(v)]: a NaN is the one number different from itself. *)
Definition isNaN (v : float) : bool := negb (v =? v).

(** [Math.PI], and the constants 9.81 and 0.03 as the doubles they denote. *)
Definition Math_PI : float := 0x1.921fb54442d18p+1.
Definition G_ACCELERATION : float := 0x1.39eb851eb851fp+3.
Definition noise_span : float := 0x1.eb851eb851eb8p-6.

(** [x.length] as a number (exact for every length an array can have). *)
Fixpoint of_nat (n : nat) : float :=
  match n with
  | O => 0
  | S k => of_nat k + 1
  end.

Record RegressionResult : Type := mkRegression {
  slope : float;
  intercept : float;
  r2 : float
}.

Record Sums : Type := mkSums {
  sum_x : float;
  sum_y : float;
  sum_xy : float;
  sum_xx : float;
  sum_yy : float
}.

(** One iteration of the loop; a read past the end of [y] gives [undefined],
    which the additions turn into NaN. *)
Definition loop_body (x y : list float) (acc : Sums) (i : nat) : Sums :=
  let xi := nth i x nan in
  let yi := nth i y nan in
  mkSums (sum_x acc + xi) (sum_y acc + yi) (sum_xy acc + xi * yi)
         (sum_xx acc + xi * xi) (sum_yy acc + yi * yi).

(** [linearRegression], with [Math.pow(q, 2)] as [q * q] (the two agree
    wherever the square is a NaN, an infinity or exact). *)
Definition linearRegression (x y : list float) : RegressionResult :=
  let len := length x in
  if Nat.eqb len 0 then mkRegression 0 0 0 else
  let n := of_nat len in
  let s := fold_left (loop_body x y) (seq 0 len) (mkSums 0 0 0 0 0) in
  let denominator := n * sum_xx s - sum_x s * sum_x s in
  if denominator =? 0 then mkRegression 0 0 0 else
  let slope := (n * sum_xy s - sum_x s * sum_y s) / denominator in
  let intercept := (sum_y s - slope * sum_x s) / n in
  let r2_denominator :=
    sqrt ((n * sum_xx s - sum_x s * sum_x s)
          * (n * sum_yy s - sum_y s * sum_y s)) in
  let q := (n * sum_xy s - sum_x s * sum_y s) / r2_denominator in
  let r2 := if r2_denominator =? 0 then 1 else q * q in
  mkRegression slope intercept r2.

Record fw_reading : Type := mk_fw_reading {
  fw_m : float;
  fw_h : float;
  fw_t : float;
  fw_n2 : float;
  fw_I : float
}.

(** [fw_state], its model given by the two numbers of the selected entry. *)
Record fw_state : Type := mk_fw_state {
  fw_readings : list fw_reading;
  fw_mode : Mode;
  model_I : float;
  model_Tf : float
}.

(** The controls as [parseFloat] and [parseInt] return them: a field that
    holds no number is the NaN. *)
Record fw_dom : Type := mk_fw_dom {
  radiusSlider : float;
  n1Slider : float;
  massSlider : float;
  manualMass : float;
  manualT : float;
  manualN2 : float
}.

Definition fw_measure (D : fw_dom) (rnd1 rnd2 : float) (s : fw_state)
    : string + (float * float * float) :=
  let r_m := radiusSlider D / 100 in
  let n1 := n1Slider D in
  let h := 2 * Math_PI * r_m * n1 in
  match fw_mode s with
  | simulation =>
      let m_kg := massSlider D / 1000 in
      let I := model_I s in
      let Tf := model_Tf s in
      let a := (m_kg * G_ACCELERATION - Tf / r_m)
               / (m_kg + I / (r_m * r_m)) in
      if a <=? 0 then inl fw_light_msg
      else
        let t := sqrt (2 * h / a) in
        let omega := (a * t) / r_m in
        let theta_after := (I * omega * omega) / (2 * Tf) in
        let n2 := theta_after / (2 * Math_PI) in
        inr (m_kg, t * (1 + (rnd1 - 0.5) * noise_span),
             n2 * (1 + (rnd2 - 0.5) * noise_span))
  | manual =>
      let m_kg := manualMass D / 1000 in
      let t := manualT D in
      let n2 := manualN2 D in
      if (isNaN m_kg || isNaN t || isNaN n2
          || (m_kg <=? 0) || (t <=? 0) || (n2 <=? 0))%bool
      then inl fw_invalid_msg
      else inr (m_kg, t, n2)
  end.

Definition fw_estimateInertia (m_kg r_m n1 t n2 : float)
    : string + float :=
  let h := 2 * Math_PI * r_m * n1 in
  let term1 := 2 * h * (n1 + n2) in
  let term2 := m_kg * r_m * r_m * (G_ACCELERATION * t * t - 2 * h) * n2 in
  if term1 =? 0 then inl fw_params_msg
  else
    let I_calc := term2 / term1 in
    if I_calc <=? 0 then inl fw_nonphysical_msg
    else inr I_calc.

Definition fw_addReading (D : fw_dom) (rnd1 rnd2 : float) (s : fw_state)
    : fw_state * option string :=
  let r_m := radiusSlider D / 100 in
  let n1 := n1Slider D in
  let h := 2 * Math_PI * r_m * n1 in
  match fw_measure D rnd1 rnd2 s with
  | inl msg => (s, Some msg)
  | inr (m_kg, t, n2) =>
      match fw_estimateInertia m_kg r_m n1 t n2 with
      | inl msg => (s, Some msg)
      | inr I_calc =>
          (mk_fw_state
             (fw_readings s ++ [mk_fw_reading m_kg h t n2 I_calc])
             (fw_mode s) (model_I s) (model_Tf s), None)
      end
  end.

(** [fw_updateUI]: the average shown, nothing without readings. *)
Definition fw_updateUI (s : fw_state) : option float :=
  match fw_readings s with
  | [] => None
  | _ :: _ =>
      let sumI := fold_left (fun acc r => acc + fw_I r) (fw_readings s) 0 in
      Some (sumI / of_nat (length (fw_readings s)))
  end.

End F64.

(** ** The loop computes the five sums *)

Lemma loop_body_shift (a b : R) (x y : list R) (l : list nat) (acc : Sums) :
  fold_left (loop_body (a :: x) (b :: y)) (map S l) acc
  = fold_left (loop_body x y) l acc.
Proof.
  revert acc. induction l as [|i l IH]; intros acc; simpl; [reflexivity|].
  apply IH.
Qed.

Lemma loop_sums_from (x : list R) :
  forall (y : list R) (acc : Sums), length x = length y ->
  fold_left (loop_body x y) (seq 0 (length x)) acc
  = mkSums (sum_x acc + Sigma x) (sum_y acc + Sigma y)
           (sum_xy acc + Sigma (prods x y))
           (sum_xx acc + Sigma (prods x x))
           (sum_yy acc + Sigma (prods y y)).
Proof.
  induction x as [|a x IH]; intros [|b y] acc Hlen; simpl in Hlen;
    try discriminate.
  - destruct acc; simpl. f_equal; lra.
  - cbn [length seq fold_left].
    rewrite <- seq_shift, loop_body_shift, IH by lia.
    unfold loop_body; simpl. f_equal; lra.
Qed.

Lemma regression_sums_spec (x y : list R) :
  length x = length y ->
  regression_sums x y
  = mkSums (Sigma x) (Sigma y) (Sigma (prods x y))
           (Sigma (prods x x)) (Sigma (prods y y)).
Proof.
  intros Hlen. unfold regression_sums. rewrite loop_sums_from by assumption.
  simpl. f_equal; lra.
Qed.

(** ** Variance and covariance terms *)

Lemma sq_dev_nonneg (a : R) (x : list R) : 0 <= sq_dev a x.
Proof.
  unfold sq_dev, Sigma. induction x as [|z x IH]; simpl; [lra|].
  pose proof (Rle_0_sqr (z - a)) as Hz. unfold Rsqr in Hz. lra.
Qed.

Lemma sq_dev_expand (a : R) (x : list R) :
  sq_dev a x
  = Sigma (prods x x) - 2 * a * Sigma x + INR (length x) * (a * a).
Proof.
  unfold sq_dev. induction x as [|z x IH].
  - unfold Sigma; simpl. lra.
  - cbn [map prods length]. rewrite S_INR. unfold Sigma in *.
    cbn [fold_right]. rewrite IH. ring.
Qed.

Lemma var_term_cons (a : R) (x : list R) :
  var_term (a :: x) = var_term x + sq_dev a x.
Proof.
  rewrite sq_dev_expand. unfold var_term. cbn [prods length].
  rewrite S_INR. unfold Sigma. cbn [fold_right]. ring.
Qed.

Lemma var_term_nonneg (x : list R) : 0 <= var_term x.
Proof.
  induction x as [|a x IH].
  - unfold var_term, Sigma; simpl. lra.
  - rewrite var_term_cons. pose proof (sq_dev_nonneg a x). lra.
Qed.

Lemma lincomb_sums (t : R) (x : list R) :
  forall y : list R, length x = length y ->
  length (lincomb t x y) = length x
  /\ Sigma (lincomb t x y) = t * Sigma x + Sigma y
  /\ Sigma (prods (lincomb t x y) (lincomb t x y))
     = t * t * Sigma (prods x x) + 2 * t * Sigma (prods x y)
       + Sigma (prods y y).
Proof.
  induction x as [|a x IH]; intros [|b y] Hlen; simpl in Hlen;
    try discriminate.
  - simpl. repeat split; lra.
  - destruct (IH y) as (Hl & Hs & Hq); [lia|].
    cbn [lincomb prods length]. unfold Sigma in *. cbn [fold_right].
    rewrite Hl, Hs, Hq. split; [reflexivity | split; ring].
Qed.

Lemma var_term_lincomb (t : R) (x y : list R) :
  length x = length y ->
  var_term (lincomb t x y)
  = t * t * var_term x + 2 * t * cov_term x y + var_term y.
Proof.
  intros Hlen. destruct (lincomb_sums t x y Hlen) as (Hl & Hs & Hq).
  unfold var_term, cov_term. rewrite Hl, Hs, Hq, <- Hlen. ring.
Qed.

(** Cauchy-Schwarz for the centred sums, where [x] is not constant. *)
Lemma cov_term_sq_le (x y : list R) :
  length x = length y -> var_term x <> 0 ->
  cov_term x y * cov_term x y <= var_term x * var_term y.
Proof.
  intros Hlen Hvx.
  pose proof (var_term_nonneg x) as Hx.
  assert (Hpos : 0 < var_term x) by lra.
  pose proof (var_term_nonneg (lincomb (- cov_term x y / var_term x) x y))
    as Hq.
  rewrite var_term_lincomb in Hq by assumption.
  set (c := cov_term x y) in *. set (v := var_term x) in *.
  set (w := var_term y) in *.
  replace (- c / v * (- c / v) * v + 2 * (- c / v) * c + w)
    with ((v * w - c * c) / v) in Hq by (field; lra).
  assert (H0 : 0 <= (v * w - c * c) / v * v) by (apply Rmult_le_pos; lra).
  replace ((v * w - c * c) / v * v) with (v * w - c * c) in H0
    by (field; lra).
  lra.
Qed.

(** ** [linearRegression] in closed form *)

Lemma linearRegression_empty (y : list R) :
  linearRegression [] y = neutral_fit.
Proof. reflexivity. Qed.

Lemma linearRegression_degenerate (x y : list R) :
  length x = length y -> var_term x = 0 ->
  linearRegression x y = neutral_fit.
Proof.
  intros Hlen Hv. unfold linearRegression.
  destruct (Nat.eqb (length x) 0); [reflexivity|].
  rewrite regression_sums_spec by assumption. cbn [sum_x sum_xx].
  fold (var_term x). rewrite Hv.
  destruct (Req_dec_T 0 0) as [_|Hne]; [reflexivity | contradiction].
Qed.

Lemma linearRegression_general (x y : list R) :
  length x = length y -> (1 <= length x)%nat -> var_term x <> 0 ->
  linearRegression x y
  = mkRegression (cov_term x y / var_term x)
      ((Sigma y - cov_term x y / var_term x * Sigma x) / INR (length x))
      (r2_formula x y).
Proof.
  intros Hlen Hn Hv. unfold linearRegression.
  destruct (Nat.eqb_spec (length x) 0) as [H0|_]; [lia|].
  rewrite regression_sums_spec by assumption.
  cbn [sum_x sum_y sum_xy sum_xx sum_yy].
  cbv zeta. fold (var_term x) (cov_term x y).
  replace (INR (length x) * Sigma (prods y y) - Sigma y * Sigma y)
    with (var_term y) by (unfold var_term; rewrite Hlen; reflexivity).
  destruct (Req_dec_T (var_term x) 0) as [E|_]; [contradiction|].
  reflexivity.
Qed.



Lemma r2_formula_bounds (x y : list R) :
  length x = length y -> var_term x <> 0 -> 0 <= r2_formula x y <= 1.
Proof.
  intros Hlen Hv. unfold r2_formula.
  destruct (Req_dec_T (sqrt (var_term x * var_term y)) 0) as [_|Hs]; [lra|].
  set (P := var_term x * var_term y) in *.
  assert (HP : 0 < P).
  { destruct (Rle_lt_dec P 0) as [Hle|Hlt]; [|exact Hlt].
    exfalso. apply Hs. apply sqrt_neg_0. exact Hle. }
  pose proof (cov_term_sq_le x y Hlen Hv) as HCS. fold P in HCS.
  replace ((cov_term x y / sqrt P) ^ 2)
    with (cov_term x y * cov_term x y / P).
  - split.
    + apply Rmult_le_pos; [nra | left; apply Rinv_0_lt_compat; exact HP].
    + apply Rmult_le_reg_r with P; [exact HP|].
      replace (cov_term x y * cov_term x y / P * P)
        with (cov_term x y * cov_term x y) by (field; lra).
      lra.
  - rewrite <- (pow2_sqrt P) at 1 by lra. field. exact Hs.
Qed.

Lemma sqrt_product_zero (x y : list R) :
  var_term x <> 0 ->
  sqrt (var_term x * var_term y) = 0 <-> var_term y = 0.
Proof.
  intros Hv. pose proof (var_term_nonneg x). pose proof (var_term_nonneg y).
  split; intros H1.
  - apply sqrt_eq_0 in H1; [nra | apply Rmult_le_pos; assumption].
  - rewrite H1, Rmult_0_r. apply sqrt_0.
Qed.

(** ** Claims on [linearRegression] *)

(** C3.  On equal-length arrays with at least one point and a non-zero
    denominator, the single summation loop yields the five sums, and
    [linearRegression] returns
    slope = (n Sum(xy) - Sum(x) Sum(y)) / (n Sum(x^2) - (Sum x)^2) and
    intercept = (Sum(y) - slope Sum(x)) / n.  On the points (1,2), (2,4),
    (3,6) it returns slope 2, intercept 0 and r2 1. *)
Theorem linearRegression_slope_intercept (x y : list R)
    (Hlen : length x = length y) (Hn : (1 <= length x)%nat)
    (Hden : INR (length x) * Sigma (prods x x) - Sigma x * Sigma x <> 0) :
  regression_sums x y
  = mkSums (Sigma x) (Sigma y) (Sigma (prods x y)) (Sigma (prods x x))
           (Sigma (prods y y))
  /\ slope (linearRegression x y)
     = (INR (length x) * Sigma (prods x y) - Sigma x * Sigma y)
       / (INR (length x) * Sigma (prods x x) - Sigma x * Sigma x)
  /\ intercept (linearRegression x y)
     = (Sigma y - slope (linearRegression x y) * Sigma x) / INR (length x)
  /\ linearRegression [1; 2; 3] [2; 4; 6] = mkRegression 2 0 1.
Proof.
  split; [apply regression_sums_spec; exact Hlen|].
  rewrite (linearRegression_general x y Hlen Hn Hden). cbn [slope intercept].
  split; [reflexivity|]. split; [reflexivity|].
  rewrite linearRegression_general;
    [| reflexivity | simpl; lia | unfold var_term, Sigma; simpl; lra].
  assert (Hvx : var_term [1; 2; 3] = 6) by (unfold var_term, Sigma; simpl; lra).
  assert (Hvy : var_term [2; 4; 6] = 24)
    by (unfold var_term, Sigma; simpl; lra).
  assert (Hc : cov_term [1; 2; 3] [2; 4; 6] = 12)
    by (unfold cov_term, Sigma; simpl; lra).
  assert (Hs : sqrt (6 * 24) = 12).
  { replace (6 * 24) with (12 * 12) by lra. apply sqrt_square. lra. }
  unfold r2_formula. rewrite Hvx, Hvy, Hc, Hs.
  destruct (Req_dec_T 12 0) as [E|_]; [lra|].
  f_equal; [lra | unfold Sigma; simpl; lra | field].
Qed.

Lemma linearRegression_slope_intercept_witness :
  slope (linearRegression [1; 3] [5; 9]) = 2
  /\ intercept (linearRegression [1; 3] [5; 9]) = 3.
Proof.
  assert (Hden : INR (length [1; 3]) * Sigma (prods [1; 3] [1; 3])
                 - Sigma [1; 3] * Sigma [1; 3] <> 0)
    by (unfold Sigma; simpl; lra).
  destruct (linearRegression_slope_intercept [1; 3] [5; 9] eq_refl
              (le_S 1 1 (le_n 1)) Hden) as (_ & Hs & Hi & _).
  assert (Hs2 : slope (linearRegression [1; 3] [5; 9]) = 2)
    by (rewrite Hs; unfold Sigma; simpl; lra).
  split; [exact Hs2|].
  rewrite Hi, Hs2. unfold Sigma; simpl. lra.
Defined.

(** C5.  On a non-degenerate input (equal lengths, n >= 1, non-zero
    denominator), with r2_denom = sqrt((n Sum(x^2) - (Sum x)^2) *
    (n Sum(y^2) - (Sum y)^2)): r2_denom is 0 exactly when y has zero
    variance, and then r2 = 1; otherwise
    r2 = ((n Sum(xy) - Sum(x) Sum(y)) / r2_denom)^2. *)
Theorem linearRegression_r2 (x y : list R)
    (Hlen : length x = length y) (Hn : (1 <= length x)%nat)
    (Hden : INR (length x) * Sigma (prods x x) - Sigma x * Sigma x <> 0) :
  let n := INR (length x) in
  let r2_denom :=
    sqrt ((n * Sigma (prods x x) - Sigma x * Sigma x)
          * (n * Sigma (prods y y) - Sigma y * Sigma y)) in
  (r2_denom = 0 <-> n * Sigma (prods y y) - Sigma y * Sigma y = 0)
  /\ (r2_denom = 0 -> r2 (linearRegression x y) = 1)
  /\ (r2_denom <> 0 ->
      r2 (linearRegression x y)
      = ((n * Sigma (prods x y) - Sigma x * Sigma y) / r2_denom) ^ 2).
Proof.
  intros n r2_denom.
  assert (Hy : n * Sigma (prods y y) - Sigma y * Sigma y = var_term y)
    by (unfold var_term, n; rewrite Hlen; reflexivity).
  assert (Hr : r2_denom = sqrt (var_term x * var_term y))
    by (unfold r2_denom; rewrite Hy; reflexivity).
  rewrite (linearRegression_general x y Hlen Hn Hden). cbn [r2].
  rewrite Hy, Hr. fold (cov_term x y). unfold r2_formula.
  split; [apply sqrt_product_zero; exact Hden|].
  destruct (Req_dec_T (sqrt (var_term x * var_term y)) 0) as [E|E].
  - split; [reflexivity | intros H; contradiction].
  - split; [intros H; contradiction | reflexivity].
Qed.

Lemma linearRegression_r2_witness :
  r2 (linearRegression [1; 2] [7; 7]) = 1.
Proof.
  assert (Hden : INR (length [1; 2]) * Sigma (prods [1; 2] [1; 2])
                 - Sigma [1; 2] * Sigma [1; 2] <> 0)
    by (unfold Sigma; simpl; lra).
  destruct (linearRegression_r2 [1; 2] [7; 7] eq_refl
              (le_S 1 1 (le_n 1)) Hden) as ([_ Hz] & Hone & _).
  apply Hone. apply Hz. unfold Sigma; simpl. lra.
Defined.

(** C6.  On equal-length arrays the r2 returned by [linearRegression] lies
    in [0, 1]: the fallback branches give 0 or 1, and the squared
    correlation is at most 1 by the Cauchy-Schwarz inequality (exact
    arithmetic). *)
Theorem linearRegression_r2_bounds (x y : list R)
    (Hlen : length x = length y) :
  0 <= r2 (linearRegression x y) <= 1.
Proof.
  destruct (Req_dec_T (var_term x) 0) as [E|Hv].
  - rewrite linearRegression_degenerate by assumption. simpl. lra.
  - destruct x as [|a x]; [simpl; lra|].
    rewrite linearRegression_general by (simpl; auto; lia).
    cbn [r2]. apply r2_formula_bounds; assumption.
Qed.

Lemma linearRegression_r2_bounds_witness :
  0 <= r2 (linearRegression [1; 2; 4] [3; 1; 2]) <= 1.
Proof.
  apply (linearRegression_r2_bounds [1; 2; 4] [3; 1; 2]). reflexivity.
Defined.

(** ** The pendulum reading set *)

Lemma sp_insert_perm (a : sp_reading) (rs : list sp_reading) :
  Permutation (sp_insert a rs) (a :: rs).
Proof.
  induction rs as [|b rs IH]; simpl; [apply Permutation_refl|].
  destruct (Rle_dec (sp_L a - sp_L b) 0); [apply Permutation_refl|].
  apply perm_trans with (b :: a :: rs);
    [apply perm_skip; exact IH | apply perm_swap].
Qed.

Lemma sp_sort_perm (rs : list sp_reading) : Permutation (sp_sort rs) rs.
Proof.
  induction rs as [|a rs IH]; simpl; [apply perm_nil|].
  apply perm_trans with (a :: sp_sort rs);
    [apply sp_insert_perm | apply perm_skip; exact IH].
Qed.

Lemma sp_insert_sorted (a : sp_reading) (rs : list sp_reading) :
  sp_ascending rs -> sp_ascending (sp_insert a rs).
Proof.
  unfold sp_ascending. induction rs as [|b rs IH]; intros Hs; simpl.
  - repeat constructor.
  - destruct (Rle_dec (sp_L a - sp_L b) 0) as [Hle|Hgt]; simpl.
    + constructor; [exact Hs | constructor; lra].
    + apply Sorted_inv in Hs. destruct Hs as [Hs Hhd].
      constructor; [apply IH; exact Hs|].
      destruct rs as [|c rs]; simpl.
      * constructor. lra.
      * destruct (Rle_dec (sp_L a - sp_L c) 0); simpl; constructor;
          [lra | apply HdRel_inv in Hhd; exact Hhd].
Qed.

Lemma sp_sort_sorted (rs : list sp_reading) : sp_ascending (sp_sort rs).
Proof.
  induction rs as [|a rs IH]; simpl.
  - constructor.
  - apply sp_insert_sorted. exact IH.
Qed.

Lemma sp_renumber_L (i : nat) (rs : list sp_reading) :
  map sp_L (sp_renumber i rs) = map sp_L rs.
Proof.
  revert i. induction rs as [|r rs IH]; intros i; simpl; [reflexivity|].
  rewrite IH. reflexivity.
Qed.

Lemma sp_renumber_T2 (i : nat) (rs : list sp_reading) :
  map sp_T2 (sp_renumber i rs) = map sp_T2 rs.
Proof.
  revert i. induction rs as [|r rs IH]; intros i; simpl; [reflexivity|].
  rewrite IH. reflexivity.
Qed.

Lemma sp_renumber_length (i : nat) (rs : list sp_reading) :
  length (sp_renumber i rs) = length rs.
Proof.
  revert i. induction rs as [|r rs IH]; intros i; simpl; [reflexivity|].
  rewrite IH. reflexivity.
Qed.

Lemma sp_renumber_sno (i : nat) (rs : list sp_reading) :
  map sp_sno (sp_renumber i rs) = seq (i + 1) (length rs).
Proof.
  revert i. induction rs as [|r rs IH]; intros i; simpl; [reflexivity|].
  rewrite IH. replace (S i + 1)%nat with (S (i + 1)) by lia. reflexivity.
Qed.

Lemma sp_has_length_In (L : R) (rs : list sp_reading) :
  sp_has_length L rs = true <-> In L (map sp_L rs).
Proof.
  unfold sp_has_length. induction rs as [|r rs IH]; simpl.
  - split; [discriminate | contradiction].
  - destruct (Req_dec_T (sp_L r) L) as [E|N]; simpl.
    + split; [intros _; left; exact E | reflexivity].
    + rewrite IH. split; [intros H; right; exact H|].
      intros [H|H]; [contradiction | exact H].
Qed.

(** The three parts of the invariant after a push, sort and renumber. *)
Lemma sp_push_invariant (rs : list sp_reading) (r : sp_reading) :
  sp_distinct rs -> ~ In (sp_L r) (map sp_L rs) ->
  let rs' := sp_renumber 0 (sp_sort (rs ++ [r])) in
  sp_distinct rs' /\ sp_ascending rs' /\ sp_numbered rs'
  /\ Permutation (map sp_L rs') (sp_L r :: map sp_L rs)
  /\ length rs' = S (length rs).
Proof.
  intros Hd Hnew rs'.
  assert (Hperm : Permutation (map sp_L rs') (sp_L r :: map sp_L rs)).
  { unfold rs'. rewrite sp_renumber_L.
    apply perm_trans with (map sp_L (rs ++ [r])).
    - apply Permutation_map. apply sp_sort_perm.
    - rewrite map_app. simpl. apply Permutation_sym.
      apply Permutation_cons_append. }
  split; [|split; [|split; [|split]]].
  - unfold sp_distinct. apply Permutation_NoDup with (sp_L r :: map sp_L rs).
    + apply Permutation_sym. exact Hperm.
    + constructor; assumption.
  - unfold sp_ascending, rs'. rewrite sp_renumber_L. apply sp_sort_sorted.
  - unfold sp_numbered, rs'.
    rewrite sp_renumber_sno, sp_renumber_length. reflexivity.
  - exact Hperm.
  - apply Permutation_length in Hperm. rewrite !length_map in Hperm.
    simpl in Hperm. rewrite length_map in Hperm. exact Hperm.
Qed.

Lemma sp_addReading_cases (D : sp_dom) (rnd : R) (s : sp_state) :
  (exists msg, sp_addReading D rnd s = (s, Some msg))
  \/ (exists r, ~ In (sp_L r) (map sp_L (sp_readings s))
        /\ sp_addReading D rnd s
           = (mk_sp_state (sp_renumber 0 (sp_sort (sp_readings s ++ [r])))
                (sp_mode s) (sp_gravity s), None)).
Proof.
  unfold sp_addReading. destruct (sp_measure D rnd s) as [msg|[L t]].
  - left. exists msg. reflexivity.
  - destruct (sp_has_length L (sp_readings s)) eqn:Hhas.
    + left. eexists. reflexivity.
    + right. eexists. split; [|reflexivity]. simpl.
      rewrite <- sp_has_length_In, Hhas. discriminate.
Qed.

Lemma sp_step_invariant (s : sp_state) (e : sp_event) :
  sp_distinct (sp_readings s) /\ sp_ascending (sp_readings s)
  /\ sp_numbered (sp_readings s) ->
  sp_distinct (sp_readings (sp_step s e))
  /\ sp_ascending (sp_readings (sp_step s e))
  /\ sp_numbered (sp_readings (sp_step s e)).
Proof.
  intros (Hd & Ha & Hn).
  assert (Hnil : sp_distinct [] /\ sp_ascending [] /\ sp_numbered [])
    by (repeat split; constructor).
  destruct e as [rnd|mode|envVal rnd|D rnd]; simpl.
  - exact Hnil.
  - repeat split; assumption.
  - exact Hnil.
  - destruct (sp_addReading_cases D rnd s) as [[msg E]|[r [Hnew E]]];
      rewrite E; simpl.
    + repeat split; assumption.
    + destruct (sp_push_invariant (sp_readings s) r Hd Hnew)
        as (H1 & H2 & H3 & _). repeat split; assumption.
Qed.

(** C9.  In every state of a pendulum session the stored readings have
    pairwise distinct lengths, are in ascending order of length and carry the
    sequence numbers 1..N.  An insertion whose length is already stored is
    rejected with the state unchanged; any other accepted insertion adds
    exactly the new length and restores the three properties. *)
Theorem sp_reading_set_invariant (s : sp_state) (Hreach : sp_reachable s) :
  (sp_distinct (sp_readings s) /\ sp_ascending (sp_readings s)
   /\ sp_numbered (sp_readings s))
  /\ (forall (D : sp_dom) (rnd L t_measured : R),
        sp_measure D rnd s = inr (L, t_measured) ->
        In L (map sp_L (sp_readings s)) ->
        sp_addReading D rnd s = (s, Some sp_duplicate_msg))
  /\ (forall (D : sp_dom) (rnd L t_measured : R),
        sp_measure D rnd s = inr (L, t_measured) ->
        ~ In L (map sp_L (sp_readings s)) ->
        let s' := fst (sp_addReading D rnd s) in
        snd (sp_addReading D rnd s) = None
        /\ Permutation (map sp_L (sp_readings s'))
             (L :: map sp_L (sp_readings s))
        /\ sp_distinct (sp_readings s') /\ sp_ascending (sp_readings s')
        /\ sp_numbered (sp_readings s')).
Proof.
  assert (Hinv : sp_distinct (sp_readings s) /\ sp_ascending (sp_readings s)
                 /\ sp_numbered (sp_readings s)).
  { induction Hreach as [rnd|s e _ IH].
    - simpl. repeat split; constructor.
    - apply sp_step_invariant. exact IH. }
  split; [exact Hinv|]. split.
  - intros D rnd L t Hm Hin. unfold sp_addReading. rewrite Hm.
    apply sp_has_length_In in Hin. rewrite Hin. reflexivity.
  - intros D rnd L t Hm Hnew s'. unfold s', sp_addReading. rewrite Hm.
    destruct (sp_has_length L (sp_readings s)) eqn:Hhas.
    + exfalso. apply Hnew. apply sp_has_length_In. exact Hhas.
    + cbn [fst snd sp_readings]. destruct Hinv as (Hd & _ & _).
      set (r := mk_sp_reading 0 L t (t / IZR (oscillationsSlider D))
                  (t / IZR (oscillationsSlider D)
                   * (t / IZR (oscillationsSlider D)))).
      destruct (sp_push_invariant (sp_readings s) r Hd Hnew)
        as (H1 & H2 & H3 & H4 & _).
      repeat split; assumption.
Qed.

Lemma sp_reading_set_invariant_witness :
  sp_numbered
    (sp_readings
       (sp_step (sp_step (initPendulumExperiment 0) (SpSetMode manual))
          (SpAddReading (mk_sp_dom 10 1 (Some 1) (Some 20)) 0))).
Proof.
  apply (sp_reading_set_invariant
           (sp_step (sp_step (initPendulumExperiment 0) (SpSetMode manual))
              (SpAddReading (mk_sp_dom 10 1 (Some 1) (Some 20)) 0))).
  apply sp_reach_step. apply sp_reach_step. apply sp_reach_init.
Defined.

(** ** Pendulum: forward model, then inverse model *)

Lemma linearRegression_two_points (x1 x2 y1 y2 : R) :
  x1 <> x2 ->
  slope (linearRegression [x1; x2] [y1; y2]) = (y1 - y2) / (x1 - x2).
Proof.
  intros Hx.
  assert (Hv : var_term [x1; x2] = (x1 - x2) * (x1 - x2))
    by (unfold var_term, Sigma; simpl; ring).
  assert (Hc : cov_term [x1; x2] [y1; y2] = (x1 - x2) * (y1 - y2))
    by (unfold cov_term, Sigma; simpl; ring).
  assert (Hne : var_term [x1; x2] <> 0).
  { rewrite Hv. intros H. apply Rmult_integral in H. lra. }
  rewrite linearRegression_general; [| reflexivity | simpl; lia | exact Hne].
  cbn [slope]. rewrite Hv, Hc. field. lra.
Qed.

Lemma sp_noiseless_time (n T_theoretical : R) :
  (n * T_theoretical) * (1 + (0.5 - 0.5) * 0.04) = n * T_theoretical.
Proof. lra. Qed.

Lemma sp_noiseless_T2 (n L g : R) :
  n <> 0 -> 0 < g -> 0 <= L ->
  let T := (n * (2 * PI * sqrt (L / g))) / n in
  T * T = 4 * PI * PI * (L / g).
Proof.
  intros Hn Hg HL T.
  assert (HT : T = 2 * PI * sqrt (L / g)) by (unfold T; field; exact Hn).
  rewrite HT.
  replace (2 * PI * sqrt (L / g) * (2 * PI * sqrt (L / g)))
    with (4 * PI * PI * (sqrt (L / g) * sqrt (L / g))) by ring.
  rewrite sqrt_sqrt; [reflexivity|].
  apply Rmult_le_pos; [exact HL | left; apply Rinv_0_lt_compat; exact Hg].
Qed.

Lemma sp_slope_to_g (La Lb g : R) :
  0 < g -> La <> Lb ->
  (La - Lb) / (4 * PI * PI * (La / g) - 4 * PI * PI * (Lb / g))
  * 4 * PI * PI = g.
Proof.
  intros Hg Hd. pose proof PI_neq0 as Hpi.
  replace (4 * PI * PI * (La / g) - 4 * PI * PI * (Lb / g))
    with (4 * PI * PI * (La - Lb) / g) by (field; lra).
  field. repeat split; lra.
Qed.

Lemma sp_pair_fit (g : R) (s : sp_state) (ra rb : sp_reading) :
  0 < g -> sp_readings s = [ra; rb] ->
  sp_T2 ra = 4 * PI * PI * (sp_L ra / g) ->
  sp_T2 rb = 4 * PI * PI * (sp_L rb / g) ->
  sp_L ra <> sp_L rb ->
  let fit := linearRegression (map sp_T2 (sp_readings s))
                              (map sp_L (sp_readings s)) in
  slope fit = g / (4 * PI * PI)
  /\ slope fit * 4 * PI * PI = g
  /\ sp_updateUI s
     = Some (mk_sp_result (slope fit) (slope fit * 4 * PI * PI) (r2 fit)).
Proof.
  intros Hg Hrs Ha Hb Hd fit. pose proof PI_neq0 as Hpi.
  assert (Hx : sp_T2 ra <> sp_T2 rb).
  { rewrite Ha, Hb. intros H. apply Hd.
    assert (H3 : sp_L ra / g = sp_L rb / g).
    { apply Rmult_eq_reg_l with (4 * PI * PI); [exact H|].
      intros E. apply Rmult_integral in E. destruct E as [E|E]; [|lra].
      apply Rmult_integral in E. lra. }
    unfold Rdiv in H3. apply Rmult_eq_reg_r in H3; [exact H3|].
    apply Rinv_neq_0_compat. lra. }
  assert (Hslope4 : slope fit * 4 * PI * PI = g).
  { unfold fit. rewrite Hrs. cbn [map].
    rewrite linearRegression_two_points by exact Hx. rewrite Ha, Hb.
    apply sp_slope_to_g; assumption. }
  split; [|split; [exact Hslope4|]].
  - rewrite <- Hslope4. field. exact Hpi.
  - unfold fit, sp_updateUI. rewrite Hrs. reflexivity.
Qed.

(** C1.  Pendulum round trip.  From an empty simulation session with gravity
    g > 0, two readings taken without noise (random draw 0.5) at two distinct
    positive lengths, each over a positive number of oscillations, have
    measuredTime = n * 2 pi sqrt(L/g); both are stored, with
    periodSquared = 4 pi^2 L / g.  The regression of their lengths on their
    periods squared has slope g / (4 pi^2), and what [sp_updateUI] displays
    is that slope, that slope times 4 pi^2, which is g, and the r2 of that
    regression. *)
Theorem pendulum_round_trip (g : R) (D1 D2 : sp_dom)
    (Hg : 0 < g)
    (Hn1 : (0 < oscillationsSlider D1)%Z)
    (Hn2 : (0 < oscillationsSlider D2)%Z)
    (HL1 : 0 < lengthSlider D1) (HL2 : 0 < lengthSlider D2)
    (Hdiff : lengthSlider D1 <> lengthSlider D2) :
  let s0 := mk_sp_state [] simulation g in
  let s1 := fst (sp_addReading D1 0.5 s0) in
  let s2 := fst (sp_addReading D2 0.5 s1) in
  let fit := linearRegression (map sp_T2 (sp_readings s2))
                              (map sp_L (sp_readings s2)) in
  sp_measure D1 0.5 s0
  = inr (lengthSlider D1,
         IZR (oscillationsSlider D1)
         * (2 * PI * sqrt (lengthSlider D1 / g)))
  /\ sp_measure D2 0.5 s1
     = inr (lengthSlider D2,
            IZR (oscillationsSlider D2)
            * (2 * PI * sqrt (lengthSlider D2 / g)))
  /\ length (sp_readings s2) = 2%nat
  /\ Permutation (map sp_L (sp_readings s2))
       [lengthSlider D1; lengthSlider D2]
  /\ sp_on_law g (sp_readings s2)
  /\ slope fit = g / (4 * PI * PI)
  /\ sp_updateUI s2
     = Some (mk_sp_result (slope fit) (slope fit * 4 * PI * PI) (r2 fit))
  /\ slope fit * 4 * PI * PI = g.
Proof.
  intros s0 s1 s2 fit.
  set (n1 := IZR (oscillationsSlider D1)).
  set (n2 := IZR (oscillationsSlider D2)).
  set (L1 := lengthSlider D1) in *. set (L2 := lengthSlider D2) in *.
  assert (Hn1' : n1 <> 0) by (unfold n1; apply not_0_IZR; lia).
  assert (Hn2' : n2 <> 0) by (unfold n2; apply not_0_IZR; lia).
  assert (Hm1 : sp_measure D1 0.5 s0 = inr (L1, n1 * (2 * PI * sqrt (L1 / g)))).
  { unfold sp_measure, s0. cbn [sp_mode sp_gravity]. fold n1 L1.
    rewrite sp_noiseless_time. reflexivity. }
  set (T1 := n1 * (2 * PI * sqrt (L1 / g)) / n1).
  set (r1 := mk_sp_reading (0 + 1) L1 (n1 * (2 * PI * sqrt (L1 / g))) T1
               (T1 * T1)).
  assert (Hs1 : s1 = mk_sp_state [r1] simulation g).
  { unfold s1, sp_addReading. rewrite Hm1. reflexivity. }
  assert (Hm2 : sp_measure D2 0.5 s1 = inr (L2, n2 * (2 * PI * sqrt (L2 / g)))).
  { rewrite Hs1. unfold sp_measure. cbn [sp_mode sp_gravity]. fold n2 L2.
    rewrite sp_noiseless_time. reflexivity. }
  set (T2 := n2 * (2 * PI * sqrt (L2 / g)) / n2).
  assert (HT1 : T1 * T1 = 4 * PI * PI * (L1 / g))
    by (apply sp_noiseless_T2; lra).
  assert (HT2 : T2 * T2 = 4 * PI * PI * (L2 / g))
    by (apply sp_noiseless_T2; lra).
  assert (Hs2 : exists ra rb : sp_reading,
            sp_readings s2 = [ra; rb]
            /\ Permutation [sp_L ra; sp_L rb] [L1; L2]
            /\ sp_T2 ra = 4 * PI * PI * (sp_L ra / g)
            /\ sp_T2 rb = 4 * PI * PI * (sp_L rb / g)
            /\ sp_L ra <> sp_L rb).
  { unfold s2, sp_addReading. rewrite Hm2. rewrite Hs1. unfold r1.
    cbn [sp_readings sp_has_length existsb sp_L orb].
    destruct (Req_dec_T L1 L2) as [E|_]; [contradiction|].
    cbn [orb app sp_sort sp_insert sp_L fst sp_mode sp_gravity].
    fold n2. fold T2.
    destruct (Rle_dec (L1 - L2) 0) as [Hle|Hgt];
      cbn [sp_renumber sp_readings]; do 2 eexists;
      (split; [reflexivity|]); cbn [sp_L sp_T2].
    - split; [apply Permutation_refl|]. repeat split; assumption.
    - split; [apply perm_swap|]. repeat split; try assumption.
      intros E. apply Hdiff. symmetry. exact E. }
  destruct Hs2 as (ra & rb & Hrs & Hperm & Ha & Hb & Hab).
  destruct (sp_pair_fit g s2 ra rb Hg Hrs Ha Hb Hab) as (Hslope & Hg4 & Hui).
  fold fit in Hslope, Hg4, Hui.
  split; [exact Hm1|]. split; [exact Hm2|].
  split; [rewrite Hrs; reflexivity|].
  split; [rewrite Hrs; exact Hperm|].
  split.
  - intros r Hin. rewrite Hrs in Hin.
    destruct Hin as [<-|[<-|[]]]; assumption.
  - split; [exact Hslope|]. split; [exact Hui | exact Hg4].
Qed.

Lemma pendulum_round_trip_witness :
  option_map g_exp
    (sp_updateUI
       (fst (sp_addReading (mk_sp_dom 10 2 None None) 0.5
               (fst (sp_addReading (mk_sp_dom 10 1 None None) 0.5
                       (mk_sp_state [] simulation 9.81))))))
  = Some 9.81.
Proof.
  assert (Hg : 0 < 9.81) by lra.
  assert (HL1 : 0 < lengthSlider (mk_sp_dom 10 1 None None)) by (simpl; lra).
  assert (HL2 : 0 < lengthSlider (mk_sp_dom 10 2 None None)) by (simpl; lra).
  assert (Hd : lengthSlider (mk_sp_dom 10 1 None None)
               <> lengthSlider (mk_sp_dom 10 2 None None)) by (simpl; lra).
  destruct (pendulum_round_trip 9.81 (mk_sp_dom 10 1 None None)
              (mk_sp_dom 10 2 None None) Hg eq_refl eq_refl HL1 HL2 Hd)
    as (_ & _ & _ & _ & _ & _ & Hui & Hg4).
  rewrite Hui. cbn [option_map g_exp]. f_equal. exact Hg4.
Defined.

(** ** Flywheel: forward model, then inverse model *)

Lemma fw_noiseless (v : R) : v * (1 + (0.5 - 0.5) * 0.03) = v.
Proof. lra. Qed.

Lemma fw_height_pos (r_m n1 : R) :
  0 < r_m -> 0 < n1 -> 0 < 2 * PI * r_m * n1.
Proof.
  intros Hr Hn. pose proof PI_RGT_0 as Hpi.
  assert (H1 : 0 < 2 * PI) by lra.
  assert (H2 : 0 < 2 * PI * r_m) by (apply Rmult_lt_0_compat; assumption).
  apply Rmult_lt_0_compat; assumption.
Qed.

(** Rotations after the fall, in closed form. *)
Lemma fw_simulateFall_n2 (r_m n1 I Tf a : R) :
  0 < r_m -> 0 < n1 -> 0 < Tf -> 0 < a ->
  let h := 2 * PI * r_m * n1 in
  let t := sqrt (2 * h / a) in
  fw_simulateFall r_m h I Tf a
  = (t, I * n1 * a / (Tf * r_m), a * t / r_m)
  /\ t * t = 2 * h / a /\ 0 < t.
Proof.
  intros Hr Hn1 HTf Ha h t. pose proof PI_RGT_0 as Hpi.
  assert (Hh : 0 < h) by (apply fw_height_pos; assumption).
  assert (Hq : 0 < 2 * h / a).
  { apply Rmult_lt_0_compat; [lra | apply Rinv_0_lt_compat; exact Ha]. }
  assert (Ht2 : t * t = 2 * h / a) by (apply sqrt_sqrt; lra).
  assert (Ht : 0 < t) by (apply sqrt_lt_R0; exact Hq).
  split; [|split; assumption].
  unfold fw_simulateFall. fold t. f_equal. f_equal.
  replace (I * (a * t / r_m) * (a * t / r_m) / (2 * Tf) / (2 * PI))
    with (I * a * a * (t * t) / (r_m * r_m * (2 * Tf) * (2 * PI)))
    by (field; repeat split; lra).
  rewrite Ht2. unfold h. field. repeat split; lra.
Qed.

(** The energy balance solved for the inertia gives back the inertia that
    drove the fall. *)
Lemma fw_inverse_of_forward (g m_kg r_m n1 I Tf : R) :
  0 < m_kg -> 0 < r_m -> 0 < n1 -> 0 < I -> 0 < Tf ->
  0 < fw_acceleration g m_kg r_m I Tf ->
  let h := 2 * PI * r_m * n1 in
  let a := fw_acceleration g m_kg r_m I Tf in
  let t := sqrt (2 * h / a) in
  let n2 := I * n1 * a / (Tf * r_m) in
  fw_term1 h n1 n2 <> 0
  /\ fw_term2 g m_kg r_m h t n2 / fw_term1 h n1 n2 = I.
Proof.
  intros Hm Hr Hn1 HI HTf Ha h a t n2. pose proof PI_RGT_0 as Hpi.
  fold a in Ha.
  assert (Hmr : 0 < m_kg * (r_m * r_m)).
  { apply Rmult_lt_0_compat; [|apply Rmult_lt_0_compat]; assumption. }
  assert (Hg : g = (a * (m_kg * r_m * r_m + I) + Tf * r_m)
                   / (m_kg * r_m * r_m)).
  { unfold a, fw_acceleration. field. repeat split; lra. }
  clearbody a.
  assert (Hh : 0 < h) by (apply fw_height_pos; assumption).
  assert (HIa : 0 < I * a) by (apply Rmult_lt_0_compat; assumption).
  assert (HTr : 0 < Tf * r_m) by (apply Rmult_lt_0_compat; assumption).
  assert (Hn2 : 0 < n2).
  { unfold n2. apply Rmult_lt_0_compat.
    - replace (I * n1 * a) with (n1 * (I * a)) by ring.
      apply Rmult_lt_0_compat; assumption.
    - apply Rinv_0_lt_compat. exact HTr. }
  assert (Ht2 : t * t = 2 * h / a).
  { apply sqrt_sqrt. left. apply Rmult_lt_0_compat;
      [lra | apply Rinv_0_lt_compat; exact Ha]. }
  assert (Hterm1 : 0 < fw_term1 h n1 n2).
  { unfold fw_term1. apply Rmult_lt_0_compat; lra. }
  split; [lra|].
  unfold fw_term2, fw_term1.
  replace (g * t * t) with (g * (t * t)) by ring. rewrite Ht2.
  assert (Hsum : 0 < n1 * (Tf * r_m) + I * n1 * a).
  { replace (n1 * (Tf * r_m) + I * n1 * a) with (n1 * (Tf * r_m + I * a))
      by ring.
    apply Rmult_lt_0_compat; lra. }
  unfold n2. rewrite Hg. unfold h. field.
  repeat split; lra.
Qed.

Lemma fw_estimate_of_simulate (g m_kg r_m n1 I Tf : R) :
  0 < m_kg -> 0 < r_m -> 0 < n1 -> 0 < I -> 0 < Tf ->
  0 < fw_acceleration g m_kg r_m I Tf ->
  let h := 2 * PI * r_m * n1 in
  let a := fw_acceleration g m_kg r_m I Tf in
  let t := fst (fst (fw_simulateFall r_m h I Tf a)) in
  let n2 := snd (fst (fw_simulateFall r_m h I Tf a)) in
  fw_estimateInertia g m_kg r_m n1 t n2 = inr I.
Proof.
  intros Hm Hr Hn1 HI HTf Ha h a t n2.
  destruct (fw_simulateFall_n2 r_m n1 I Tf a Hr Hn1 HTf Ha) as (Hsim & _).
  fold h in Hsim. unfold t, n2. rewrite Hsim. cbn [fst snd].
  destruct (fw_inverse_of_forward g m_kg r_m n1 I Tf Hm Hr Hn1 HI HTf Ha)
    as (Hne & Hval).
  fold h a in Hne, Hval. unfold fw_estimateInertia. fold h.
  destruct (Req_dec_T _ 0) as [E|_]; [contradiction|].
  rewrite Hval. destruct (Rle_dec I 0) as [Hle|_]; [lra | reflexivity].
Qed.

(** C2.  Flywheel round trip.  In simulation mode, with positive mass, axle
    radius, winding count, inertia and friction torque, and a gravity for
    which the fall acceleration a = (m g - Tf/r) / (m + I/r^2) is positive, a
    reading taken without noise (random draws 0.5) feeds the fall time and
    the rotations after the fall into the inverse estimator, which returns
    the inertia of the model; that inertia is recorded.  In particular for
    mass 0.05, axle radius 0.05, n1 = 5, I = 0.01, Tf = 0.003 and gravity
    9.81 the acceleration is positive and the estimate is 0.01. *)
Theorem flywheel_round_trip (g : R) (D : fw_dom) (s : fw_state)
    (Hmode : fw_mode s = simulation)
    (Hmass : 0 < massSlider D) (Hradius : 0 < radiusSlider D)
    (Hwind : (0 < n1Slider D)%Z)
    (HI : 0 < model_I (fw_model s)) (HTf : 0 < model_Tf (fw_model s))
    (Ha : 0 < fw_acceleration g (massSlider D / 1000) (radiusSlider D / 100)
                (model_I (fw_model s)) (model_Tf (fw_model s))) :
  let m_kg := massSlider D / 1000 in
  let r_m := radiusSlider D / 100 in
  let n1 := IZR (n1Slider D) in
  let h := 2 * PI * r_m * n1 in
  let I := model_I (fw_model s) in
  let Tf := model_Tf (fw_model s) in
  let a := fw_acceleration g m_kg r_m I Tf in
  let t := fst (fst (fw_simulateFall r_m h I Tf a)) in
  let n2 := snd (fst (fw_simulateFall r_m h I Tf a)) in
  fw_measure g D 0.5 0.5 s = inr (m_kg, t, n2)
  /\ fw_estimateInertia g m_kg r_m n1 t n2 = inr I
  /\ fw_addReading_at g D 0.5 0.5 s
     = (mk_fw_state (fw_table s)
          (fw_readings s ++ [mk_fw_reading m_kg h t n2 I])
          (fw_mode s) (fw_key s), None)
  /\ (let a0 := fw_acceleration 9.81 0.05 0.05 0.01 0.003 in
      let h0 := 2 * PI * 0.05 * 5 in
      0 < a0
      /\ fw_estimateInertia 9.81 0.05 0.05 5
           (fst (fst (fw_simulateFall 0.05 h0 0.01 0.003 a0)))
           (snd (fst (fw_simulateFall 0.05 h0 0.01 0.003 a0)))
         = inr 0.01).
Proof.
  intros m_kg r_m n1 h I Tf a t n2.
  change (0 < a) in Ha. change (0 < I) in HI. change (0 < Tf) in HTf.
  assert (Hm : 0 < m_kg) by (unfold m_kg; lra).
  assert (Hr : 0 < r_m) by (unfold r_m; lra).
  assert (Hn1 : 0 < n1) by (unfold n1; apply IZR_lt; exact Hwind).
  assert (Hmeasure : fw_measure g D 0.5 0.5 s = inr (m_kg, t, n2)).
  { unfold fw_measure. rewrite Hmode. fold r_m n1 h m_kg I Tf a.
    destruct (Rle_dec a 0) as [Hle|_]; [lra|].
    unfold t, n2. destruct (fw_simulateFall r_m h I Tf a) as [[t' n2'] w].
    cbn [fst snd]. rewrite !fw_noiseless. reflexivity. }
  assert (Hest : fw_estimateInertia g m_kg r_m n1 t n2 = inr I).
  { apply fw_estimate_of_simulate; assumption. }
  split; [exact Hmeasure|]. split; [exact Hest|]. split.
  - unfold fw_addReading_at. rewrite Hmeasure. fold r_m n1. rewrite Hest.
    reflexivity.
  - assert (Ha0 : 0 < fw_acceleration 9.81 0.05 0.05 0.01 0.003).
    { unfold fw_acceleration.
      apply Rmult_lt_0_compat; [lra | apply Rinv_0_lt_compat; lra]. }
    split; [exact Ha0|].
    apply fw_estimate_of_simulate; (exact Ha0 || lra).
Qed.

Lemma flywheel_round_trip_witness :
  fw_estimateInertia 9.81 (50 / 1000) (5 / 100) 5
    (fst (fst (fw_simulateFall (5 / 100) (2 * PI * (5 / 100) * 5)
                 0.005 0.002
                 (fw_acceleration 9.81 (50 / 1000) (5 / 100) 0.005 0.002))))
    (snd (fst (fw_simulateFall (5 / 100) (2 * PI * (5 / 100) * 5)
                 0.005 0.002
                 (fw_acceleration 9.81 (50 / 1000) (5 / 100) 0.005 0.002))))
  = inr 0.005.
Proof.
  set (D := mk_fw_dom 5 5 50 None None None).
  set (s := initFlywheelExperiment FLYWHEEL_MODELS key_A 0 0).
  assert (Hmass : 0 < massSlider D) by (simpl; lra).
  assert (Hradius : 0 < radiusSlider D) by (simpl; lra).
  assert (HI : 0 < model_I (fw_model s)) by (simpl; lra).
  assert (HTf : 0 < model_Tf (fw_model s)) by (simpl; lra).
  assert (Ha : 0 < fw_acceleration 9.81 (massSlider D / 1000)
                     (radiusSlider D / 100) (model_I (fw_model s))
                     (model_Tf (fw_model s))).
  { unfold fw_acceleration. simpl.
    apply Rmult_lt_0_compat; [lra | apply Rinv_0_lt_compat; lra]. }
  destruct (flywheel_round_trip 9.81 D s eq_refl Hmass Hradius eq_refl HI HTf
              Ha) as (_ & Hest & _).
  exact Hest.
Defined.

(** ** Flywheel: the guards of [fw_addReading] *)

Lemma fw_messages_distinct :
  fw_light_msg <> fw_params_msg /\ fw_light_msg <> fw_nonphysical_msg
  /\ fw_params_msg <> fw_nonphysical_msg.
Proof. repeat split; intros H; inversion H. Qed.

(** A call either leaves the state as it is and notifies, or appends one
    reading whose inertia passed the guard [I_calc <= 0]. *)
Lemma fw_addReading_cases (g : R) (D : fw_dom) (rnd1 rnd2 : R)
    (s : fw_state) :
  (exists msg, fw_addReading_at g D rnd1 rnd2 s = (s, Some msg))
  \/ (exists m_kg t n2 I_calc,
        fw_measure g D rnd1 rnd2 s = inr (m_kg, t, n2)
        /\ 0 < I_calc
        /\ fw_addReading_at g D rnd1 rnd2 s
           = (mk_fw_state (fw_table s)
                (fw_readings s
                 ++ [mk_fw_reading m_kg
                       (2 * PI * (radiusSlider D / 100) * IZR (n1Slider D))
                       t n2 I_calc])
                (fw_mode s) (fw_key s), None)).
Proof.
  unfold fw_addReading_at.
  destruct (fw_measure g D rnd1 rnd2 s) as [msg|[[m_kg t] n2]].
  - left. exists msg. reflexivity.
  - unfold fw_estimateInertia.
    destruct (Req_dec_T _ 0) as [_|_]; [left; eexists; reflexivity|].
    destruct (Rle_dec _ 0) as [_|Hpos]; [left; eexists; reflexivity|].
    right. do 4 eexists. split; [reflexivity|]. split; [|reflexivity].
    apply Rnot_le_lt. exact Hpos.
Qed.

(** C7.  Once the measurement (m, t, n2) is in hand, [fw_addReading] notifies
    "Invalid parameters." exactly when 2h(n1 + n2) = 0, and "Non-physical
    result." exactly when that denominator is non-zero and
    I = m r^2 (g t^2 - 2h) n2 / (2h (n1 + n2)) <= 0; whenever it notifies, the
    state, hence the list of readings, is unchanged; otherwise exactly that I
    is appended as the inertia of the new reading. *)
Theorem fw_inverse_failures (D : fw_dom) (rnd1 rnd2 : R) (s : fw_state)
    (m_kg t n2 : R)
    (Hmeasure : fw_measure G_ACCELERATION D rnd1 rnd2 s = inr (m_kg, t, n2)) :
  let r_m := radiusSlider D / 100 in
  let n1 := IZR (n1Slider D) in
  let h := 2 * PI * r_m * n1 in
  let term1 := 2 * h * (n1 + n2) in
  let I_calc :=
    m_kg * r_m * r_m * (G_ACCELERATION * t * t - 2 * h) * n2 / term1 in
  (snd (fw_addReading D rnd1 rnd2 s) = Some fw_params_msg <-> term1 = 0)
  /\ (snd (fw_addReading D rnd1 rnd2 s) = Some fw_nonphysical_msg
      <-> term1 <> 0 /\ I_calc <= 0)
  /\ (snd (fw_addReading D rnd1 rnd2 s) <> None ->
      fst (fw_addReading D rnd1 rnd2 s) = s)
  /\ (term1 <> 0 -> 0 < I_calc ->
      fw_addReading D rnd1 rnd2 s
      = (mk_fw_state (fw_table s)
           (fw_readings s ++ [mk_fw_reading m_kg h t n2 I_calc])
           (fw_mode s) (fw_key s), None)).
Proof.
  intros r_m n1 h term1 I_calc.
  destruct fw_messages_distinct as (_ & _ & Hpn).
  unfold fw_addReading, fw_addReading_at. rewrite Hmeasure.
  unfold fw_estimateInertia, fw_term1, fw_term2.
  fold r_m n1 h term1. fold I_calc.
  destruct (Req_dec_T term1 0) as [E|N]; cbn [fst snd].
  - split; [split; [intros _; exact E | reflexivity]|].
    split; [split; [|intros [H _]; contradiction]|].
    + intros H. exfalso. apply Hpn. congruence.
    + split; [reflexivity | intros H; contradiction].
  - destruct (Rle_dec I_calc 0) as [Hle|Hgt]; cbn [fst snd].
    + split; [split; [|intros H; contradiction]|].
      * intros H. exfalso. apply Hpn. congruence.
      * split; [split; [intros _; split; assumption | reflexivity]|].
        split; [reflexivity | intros _ H; lra].
    + split; [split; [discriminate | intros H; contradiction]|].
      split; [split; [discriminate | intros [_ H]; contradiction]|].
      split; [intros H; contradiction | reflexivity].
Qed.

Lemma fw_inverse_failures_witness :
  fw_addReading (mk_fw_dom 5 5 50 (Some 50) (Some 0.1) (Some 2)) 0 0
    (fw_setMode manual (initFlywheelExperiment FLYWHEEL_MODELS key_A 0 0))
  = (fw_setMode manual (initFlywheelExperiment FLYWHEEL_MODELS key_A 0 0),
     Some fw_nonphysical_msg).
Proof.
  set (D := mk_fw_dom 5 5 50 (Some 50) (Some 0.1) (Some 2)).
  set (s := fw_setMode manual
              (initFlywheelExperiment FLYWHEEL_MODELS key_A 0 0)).
  assert (Hmeasure : fw_measure G_ACCELERATION D 0 0 s
                     = inr (50 / 1000, 0.1, 2)).
  { unfold fw_measure. simpl.
    destruct (Rle_dec (50 / 1000) 0) as [H|_]; [lra|].
    destruct (Rle_dec 0.1 0) as [H|_]; [lra|].
    destruct (Rle_dec 2 0) as [H|_]; [lra|]. reflexivity. }
  destruct (fw_inverse_failures D 0 0 s (50 / 1000) 0.1 2 Hmeasure)
    as (_ & [_ Hnp] & Hsame & _).
  assert (Hmsg : snd (fw_addReading D 0 0 s) = Some fw_nonphysical_msg).
  { apply Hnp. simpl. pose proof PI_RGT_0 as Hpi. pose proof PI2_1 as Hpi2.
    assert (Hh : 0 < 2 * PI * (5 / 100) * 5) by lra.
    assert (Hterm : 0 < 2 * (2 * PI * (5 / 100) * 5) * (5 + 2)) by lra.
    split; [lra|].
    unfold G_ACCELERATION.
    assert (Hnum : 50 / 1000 * (5 / 100) * (5 / 100)
                   * (9.81 * 0.1 * 0.1 - 2 * (2 * PI * (5 / 100) * 5)) * 2
                   <= 0)
      by lra.
    apply Rinv_0_lt_compat in Hterm. unfold Rdiv at 1.
    replace 0 with (0 * / (2 * (2 * PI * (5 / 100) * 5) * (5 + 2))) by ring.
    apply Rmult_le_compat_r; [left; exact Hterm | exact Hnum]. }
  rewrite (surjective_pairing (fw_addReading D 0 0 s)).
  rewrite Hmsg, Hsame; [reflexivity|]. rewrite Hmsg. discriminate.
Defined.

Lemma fw_rotations_formula (I omega Tf : R) :
  (I * omega * omega) / (2 * Tf) / (2 * PI)
  = (I * omega ^ 2) / (2 * Tf * 2 * PI).
Proof.
  unfold Rdiv. replace (2 * Tf * 2 * PI) with ((2 * Tf) * (2 * PI)) by ring.
  rewrite !Rinv_mult. ring.
Qed.

(** C8.  In simulation mode, with a = (m g - Tf/r) / (m + I/r^2):
    [fw_addReading] notifies "Mass is too light." exactly when a <= 0, and
    then the state, hence the list of readings, is unchanged; when a > 0 the
    measurement proceeds from t = sqrt(2h/a), omega = a t / r and
    n2 = (I omega^2) / (2 Tf 2 pi), each of t and n2 then scaled by its random
    error. *)
Theorem fw_forward_failure (D : fw_dom) (rnd1 rnd2 : R) (s : fw_state)
    (Hmode : fw_mode s = simulation) :
  let r_m := radiusSlider D / 100 in
  let n1 := IZR (n1Slider D) in
  let h := 2 * PI * r_m * n1 in
  let m_kg := massSlider D / 1000 in
  let I := model_I (fw_model s) in
  let Tf := model_Tf (fw_model s) in
  let a := (m_kg * G_ACCELERATION - Tf / r_m) / (m_kg + I / (r_m * r_m)) in
  (a <= 0 -> fw_addReading D rnd1 rnd2 s = (s, Some fw_light_msg))
  /\ (snd (fw_addReading D rnd1 rnd2 s) = Some fw_light_msg -> a <= 0)
  /\ (0 < a ->
      let t := sqrt (2 * h / a) in
      let omega := a * t / r_m in
      let n2 := (I * omega ^ 2) / (2 * Tf * 2 * PI) in
      fw_measure G_ACCELERATION D rnd1 rnd2 s
      = inr (m_kg, t * (1 + (rnd1 - 0.5) * 0.03),
             n2 * (1 + (rnd2 - 0.5) * 0.03))).
Proof.
  intros r_m n1 h m_kg I Tf a.
  destruct fw_messages_distinct as (Hlp & Hln & _).
  assert (Hmeasure : fw_measure G_ACCELERATION D rnd1 rnd2 s
            = if Rle_dec a 0 then inl fw_light_msg
              else inr (m_kg,
                        sqrt (2 * h / a) * (1 + (rnd1 - 0.5) * 0.03),
                        (I * (a * sqrt (2 * h / a) / r_m) ^ 2)
                        / (2 * Tf * 2 * PI)
                        * (1 + (rnd2 - 0.5) * 0.03))).
  { unfold fw_measure. rewrite Hmode. unfold fw_acceleration.
    fold r_m n1 h m_kg I Tf a. destruct (Rle_dec a 0); [reflexivity|].
    unfold fw_simulateFall. rewrite fw_rotations_formula. reflexivity. }
  split; [|split].
  - intros Hle. unfold fw_addReading, fw_addReading_at. rewrite Hmeasure.
    destruct (Rle_dec a 0) as [_|Hgt]; [reflexivity | contradiction].
  - destruct (Rle_dec a 0) as [Hle|Hgt]; [intros _; exact Hle|].
    intros Hmsg. exfalso.
    destruct (fw_addReading_cases G_ACCELERATION D rnd1 rnd2 s)
      as [[msg E]|(m' & t' & n2' & I' & _ & _ & E)];
      unfold fw_addReading in Hmsg; rewrite E in Hmsg; [|discriminate].
    cbn [snd] in Hmsg. unfold fw_addReading_at in E. rewrite Hmeasure in E.
    unfold fw_estimateInertia in E.
    destruct (Req_dec_T _ 0) in E.
    + apply Hlp. congruence.
    + destruct (Rle_dec _ 0) in E; [apply Hln; congruence | discriminate].
  - intros Hpos t omega n2. rewrite Hmeasure.
    destruct (Rle_dec a 0) as [Hle|_]; [lra | reflexivity].
Qed.

Lemma fw_forward_failure_witness :
  fw_addReading (mk_fw_dom 5 5 1 None None None) 0 0
    (initFlywheelExperiment FLYWHEEL_MODELS key_A 0 0)
  = (initFlywheelExperiment FLYWHEEL_MODELS key_A 0 0, Some fw_light_msg).
Proof.
  destruct (fw_forward_failure (mk_fw_dom 5 5 1 None None None) 0 0
              (initFlywheelExperiment FLYWHEEL_MODELS key_A 0 0) eq_refl)
    as (Hfail & _).
  apply Hfail. simpl. unfold G_ACCELERATION.
  assert (Hnum : 1 / 1000 * 9.81 - 0.002 / (5 / 100) <= 0) by lra.
  assert (Hden : 0 < 1 / 1000 + 0.005 / (5 / 100 * (5 / 100))) by lra.
  apply Rinv_0_lt_compat in Hden. unfold Rdiv at 1.
  replace 0 with (0 * / (1 / 1000 + 0.005 / (5 / 100 * (5 / 100)))) by ring.
  apply Rmult_le_compat_r; [left; exact Hden | exact Hnum].
Defined.

(** ** Flywheel: a reading without windings *)


(** ** Further properties of [linearRegression] *)

Lemma Sigma_perm (l l' : list R) : Permutation l l' -> Sigma l = Sigma l'.
Proof.
  unfold Sigma. induction 1 as [|a l l' _ IH|a b l|l l' l'' _ IH1 _ IH2];
    simpl; lra.
Qed.

Lemma prods_combine (x y : list R) :
  prods x y = map (fun p => fst p * snd p) (combine x y).
Proof.
  revert y. induction x as [|a x IH]; intros [|b y]; simpl; try reflexivity.
  rewrite IH. reflexivity.
Qed.

Lemma prods_diag (x : list R) : prods x x = map (fun a => a * a) x.
Proof.
  induction x as [|a x IH]; simpl; [reflexivity|]. rewrite IH. reflexivity.
Qed.

Lemma combine_fst (x y : list R) :
  length x = length y -> map fst (combine x y) = x.
Proof.
  revert y. induction x as [|a x IH]; intros [|b y] H; simpl in *;
    try discriminate; [reflexivity|].
  rewrite IH by lia. reflexivity.
Qed.

Lemma combine_snd (x y : list R) :
  length x = length y -> map snd (combine x y) = y.
Proof.
  revert y. induction x as [|a x IH]; intros [|b y] H; simpl in *;
    try discriminate; [reflexivity|].
  rewrite IH by lia. reflexivity.
Qed.

(** The result is a function of the number of points and of the five sums. *)
Lemma linearRegression_of_sums (x y x' y' : list R) :
  length x = length y -> length x' = length y' -> length x = length x' ->
  Sigma x = Sigma x' -> Sigma y = Sigma y' ->
  Sigma (prods x y) = Sigma (prods x' y') ->
  Sigma (prods x x) = Sigma (prods x' x') ->
  Sigma (prods y y) = Sigma (prods y' y') ->
  linearRegression x y = linearRegression x' y'.
Proof.
  intros Hl Hl' Hn Hx Hy Hxy Hxx Hyy. unfold linearRegression.
  rewrite !regression_sums_spec by assumption.
  rewrite Hn, Hx, Hy, Hxy, Hxx, Hyy. reflexivity.
Qed.











(** X3.  The fit does not depend on the order of the points: two equal-length
    inputs whose lists of pairs are permutations of each other have the same
    slope, intercept and r2. *)
Theorem linearRegression_permutation (x y x' y' : list R)
    (Hlen : length x = length y) (Hlen' : length x' = length y')
    (Hperm : Permutation (combine x y) (combine x' y')) :
  linearRegression x y = linearRegression x' y'.
Proof.
  assert (Hx : Permutation x x').
  { rewrite <- (combine_fst x y Hlen), <- (combine_fst x' y' Hlen').
    apply Permutation_map. exact Hperm. }
  assert (Hy : Permutation y y').
  { rewrite <- (combine_snd x y Hlen), <- (combine_snd x' y' Hlen').
    apply Permutation_map. exact Hperm. }
  apply linearRegression_of_sums; try assumption.
  - apply Permutation_length. exact Hx.
  - apply Sigma_perm. exact Hx.
  - apply Sigma_perm. exact Hy.
  - rewrite !prods_combine. apply Sigma_perm. apply Permutation_map.
    exact Hperm.
  - rewrite !prods_diag. apply Sigma_perm. apply Permutation_map. exact Hx.
  - rewrite !prods_diag. apply Sigma_perm. apply Permutation_map. exact Hy.
Qed.

Lemma linearRegression_permutation_witness :
  linearRegression [1; 2] [3; 5] = linearRegression [2; 1] [5; 3].
Proof.
  apply (linearRegression_permutation [1; 2] [3; 5] [2; 1] [5; 3]);
    [reflexivity | reflexivity | simpl; apply perm_swap].
Defined.

(** ** Further properties of the pendulum session *)

Lemma sp_messages_distinct : sp_invalid_msg <> sp_duplicate_msg.
Proof. intros H. inversion H. Qed.

Lemma sp_measure_frame (D : sp_dom) (rnd : R) (s s' : sp_state) :
  sp_mode s' = sp_mode s -> sp_gravity s' = sp_gravity s ->
  sp_measure D rnd s' = sp_measure D rnd s.
Proof. intros Hm Hg. unfold sp_measure. rewrite Hm, Hg. reflexivity. Qed.

(** X4.  In manual mode [sp_addReading] answers "Please enter valid positive
    numbers." and leaves the state as it is exactly when a field is not a
    number or is not strictly positive; otherwise both fields are positive
    numbers and are taken as the length and the measured time. *)
Theorem sp_manual_validation (D : sp_dom) (rnd : R) (s : sp_state)
    (Hmode : sp_mode s = manual) :
  (sp_manual_invalid D <-> sp_addReading D rnd s = (s, Some sp_invalid_msg))
  /\ (~ sp_manual_invalid D ->
      exists L t_measured : R,
        manualLengthInput D = Some L /\ manualTimeInput D = Some t_measured
        /\ 0 < L /\ 0 < t_measured
        /\ sp_measure D rnd s = inr (L, t_measured)).
Proof.
  pose proof sp_messages_distinct as Hmsg.
  unfold sp_manual_invalid, sp_addReading, sp_measure. rewrite Hmode.
  destruct (manualLengthInput D) as [L|];
    [|split; [split; [reflexivity | exact (fun _ => I)]
             | intros H; exfalso; exact (H I)]].
  destruct (manualTimeInput D) as [t|];
    [|split; [split; [reflexivity | exact (fun _ => I)]
             | intros H; exfalso; exact (H I)]].
  destruct (Rle_dec L 0) as [HL|HL].
  { split; [split; [reflexivity | intros _; left; exact HL]|].
    intros H. exfalso. apply H. left. exact HL. }
  destruct (Rle_dec t 0) as [Ht|Ht].
  { split; [split; [reflexivity | intros _; right; exact Ht]|].
    intros H. exfalso. apply H. right. exact Ht. }
  split.
  - split; [intros [H|H]; contradiction|].
    destruct (sp_has_length L (sp_readings s)); intros H.
    + exfalso. apply Hmsg. congruence.
    + discriminate.
  - intros _. exists L, t. repeat split; lra.
Qed.

Lemma sp_manual_validation_witness :
  sp_addReading (mk_sp_dom 10 1 None (Some 20)) 0
    (mk_sp_state [] manual 9.81)
  = (mk_sp_state [] manual 9.81, Some sp_invalid_msg).
Proof.
  destruct (sp_manual_validation (mk_sp_dom 10 1 None (Some 20)) 0
              (mk_sp_state [] manual 9.81) eq_refl) as [[Hfail _] _].
  apply Hfail. exact I.
Defined.



Lemma sp_renumber_data (i : nat) (rs : list sp_reading) :
  map sp_data (sp_renumber i rs) = map sp_data rs.
Proof.
  revert i. induction rs as [|r rs IH]; intros i; simpl; [reflexivity|].
  rewrite IH. reflexivity.
Qed.

Lemma sp_push_data (rs : list sp_reading) (r : sp_reading) :
  Permutation (map sp_data (sp_renumber 0 (sp_sort (rs ++ [r]))))
    (sp_data r :: map sp_data rs).
Proof.
  rewrite sp_renumber_data.
  apply perm_trans with (map sp_data (rs ++ [r])).
  - apply Permutation_map. apply sp_sort_perm.
  - rewrite map_app. simpl. apply Permutation_sym.
    apply Permutation_cons_append.
Qed.







Lemma sp_data_L (rs : list sp_reading) :
  map (fun d : R * R * R * R => fst (fst (fst d))) (map sp_data rs)
  = map sp_L rs.
Proof. rewrite map_map. reflexivity. Qed.

Lemma sp_renumber_ext (i : nat) (rs rs' : list sp_reading) :
  map sp_data rs = map sp_data rs' -> sp_renumber i rs = sp_renumber i rs'.
Proof.
  revert i rs'. induction rs as [|r rs IH]; intros i [|r' rs'] H;
    simpl in H; try discriminate; [reflexivity|].
  injection H as HL Ht HT HT2 Hrest. simpl.
  rewrite HL, Ht, HT, HT2, (IH (S i) rs' Hrest). reflexivity.
Qed.

(** Two ascending lists with the same readings and no repeated length list
    them in the same order. *)
Lemma sp_sorted_unique (l : list sp_reading) :
  forall l' : list sp_reading,
  Permutation (map sp_data l) (map sp_data l') ->
  sp_ascending l -> sp_ascending l' -> sp_distinct l ->
  map sp_data l = map sp_data l'.
Proof.
  unfold sp_ascending, sp_distinct.
  induction l as [|a l IH]; intros l' Hperm Hs Hs' Hnd.
  - apply Permutation_nil in Hperm. simpl. symmetry. exact Hperm.
  - destruct l' as [|a' l'].
    { apply Permutation_sym, Permutation_nil in Hperm. discriminate. }
    assert (HpL : Permutation (map sp_L (a :: l)) (map sp_L (a' :: l'))).
    { rewrite <- !sp_data_L. apply Permutation_map. exact Hperm. }
    simpl in Hs, Hs', Hnd, HpL.
    apply Sorted_StronglySorted in Hs; [|intros u v w; apply Rle_trans].
    apply Sorted_StronglySorted in Hs'; [|intros u v w; apply Rle_trans].
    apply StronglySorted_inv in Hs. destruct Hs as [Hst Hmin].
    apply StronglySorted_inv in Hs'. destruct Hs' as [Hst' Hmin'].
    rewrite Forall_forall in Hmin, Hmin'.
    apply NoDup_cons_iff in Hnd. destruct Hnd as [Hnotin Hnd].
    assert (Hle : sp_L a <= sp_L a').
    { assert (Hin : In (sp_L a') (sp_L a :: map sp_L l)).
      { apply Permutation_in with (sp_L a' :: map sp_L l');
          [apply Permutation_sym; exact HpL | left; reflexivity]. }
      destruct Hin as [E|Hin]; [lra | apply Hmin; exact Hin]. }
    assert (Hge : sp_L a' <= sp_L a).
    { assert (Hin : In (sp_L a) (sp_L a' :: map sp_L l')).
      { apply Permutation_in with (sp_L a :: map sp_L l);
          [exact HpL | left; reflexivity]. }
      destruct Hin as [E|Hin]; [lra | apply Hmin'; exact Hin]. }
    assert (Hkey : sp_L a' = sp_L a) by lra.
    assert (Hhead : sp_data a = sp_data a').
    { assert (Hin : In (sp_data a') (map sp_data (a :: l))).
      { apply Permutation_in with (map sp_data (a' :: l'));
          [apply Permutation_sym; exact Hperm | left; reflexivity]. }
      destruct Hin as [E|Hin]; [exact E|].
      exfalso. apply Hnotin. rewrite <- Hkey, <- sp_data_L.
      apply (in_map (fun d : R * R * R * R => fst (fst (fst d)))) in Hin.
      exact Hin. }
    simpl. rewrite Hhead. f_equal.
    apply IH.
    + simpl in Hperm. rewrite Hhead in Hperm.
      apply Permutation_cons_inv in Hperm. exact Hperm.
    + apply StronglySorted_Sorted. exact Hst.
    + apply StronglySorted_Sorted. exact Hst'.
    + exact Hnd.
Qed.

Lemma sp_push_twice (rs : list sp_reading) (ra rb : sp_reading) :
  sp_distinct rs -> ~ In (sp_L ra) (map sp_L rs) ->
  ~ In (sp_L rb) (map sp_L rs) -> sp_L ra <> sp_L rb ->
  sp_renumber 0 (sp_sort (sp_renumber 0 (sp_sort (rs ++ [ra])) ++ [rb]))
  = sp_renumber 0 (sp_sort (sp_renumber 0 (sp_sort (rs ++ [rb])) ++ [ra])).
Proof.
  intros Hd Ha Hb Hab.
  set (A := sp_renumber 0 (sp_sort (rs ++ [ra]))).
  set (B := sp_renumber 0 (sp_sort (rs ++ [rb]))).
  assert (HA : Permutation (map sp_data (sp_sort (A ++ [rb])))
                 (sp_data rb :: sp_data ra :: map sp_data rs)).
  { apply perm_trans with (map sp_data (A ++ [rb])).
    - apply Permutation_map. apply sp_sort_perm.
    - rewrite map_app. simpl.
      apply perm_trans with (sp_data rb :: map sp_data A).
      + apply Permutation_sym. apply Permutation_cons_append.
      + apply perm_skip. apply sp_push_data. }
  assert (HB : Permutation (map sp_data (sp_sort (B ++ [ra])))
                 (sp_data ra :: sp_data rb :: map sp_data rs)).
  { apply perm_trans with (map sp_data (B ++ [ra])).
    - apply Permutation_map. apply sp_sort_perm.
    - rewrite map_app. simpl.
      apply perm_trans with (sp_data ra :: map sp_data B).
      + apply Permutation_sym. apply Permutation_cons_append.
      + apply perm_skip. apply sp_push_data. }
  apply sp_renumber_ext. apply sp_sorted_unique.
  - apply perm_trans with (sp_data rb :: sp_data ra :: map sp_data rs);
      [exact HA|].
    apply perm_trans with (sp_data ra :: sp_data rb :: map sp_data rs);
      [apply perm_swap | apply Permutation_sym; exact HB].
  - apply sp_sort_sorted.
  - apply sp_sort_sorted.
  - unfold sp_distinct. rewrite <- sp_data_L.
    apply Permutation_NoDup
      with (map (fun d : R * R * R * R => fst (fst (fst d)))
              (sp_data rb :: sp_data ra :: map sp_data rs)).
    + apply Permutation_sym. apply Permutation_map. exact HA.
    + cbn [map]. rewrite sp_data_L. cbn [sp_data fst].
      constructor; [|constructor; assumption].
      intros [E|Hin]; [apply Hab; exact E | apply Hb; exact Hin].
Qed.

(** X8.  The stored table does not depend on the order in which readings are
    taken: two accepted insertions of different new lengths, made in either
    order into a reading set without repeated lengths, leave the same state
    (same rows, same order, same sequence numbers). *)
Theorem sp_insertion_order_irrelevant (s : sp_state) (D1 D2 : sp_dom)
    (rnd1 rnd2 L1 t1 L2 t2 : R)
    (Hd : sp_distinct (sp_readings s))
    (Hm1 : sp_measure D1 rnd1 s = inr (L1, t1))
    (Hm2 : sp_measure D2 rnd2 s = inr (L2, t2))
    (Hnew1 : ~ In L1 (map sp_L (sp_readings s)))
    (Hnew2 : ~ In L2 (map sp_L (sp_readings s)))
    (Hdiff : L1 <> L2) :
  fst (sp_addReading D2 rnd2 (fst (sp_addReading D1 rnd1 s)))
  = fst (sp_addReading D1 rnd1 (fst (sp_addReading D2 rnd2 s))).
Proof.
  set (ra := mk_sp_reading 0 L1 t1 (t1 / IZR (oscillationsSlider D1))
               (t1 / IZR (oscillationsSlider D1)
                * (t1 / IZR (oscillationsSlider D1)))).
  set (rb := mk_sp_reading 0 L2 t2 (t2 / IZR (oscillationsSlider D2))
               (t2 / IZR (oscillationsSlider D2)
                * (t2 / IZR (oscillationsSlider D2)))).
  assert (Hfirst : forall (D : sp_dom) (rnd L t : R) (r : sp_reading),
             sp_measure D rnd s = inr (L, t) ->
             ~ In L (map sp_L (sp_readings s)) ->
             r = mk_sp_reading 0 L t (t / IZR (oscillationsSlider D))
                   (t / IZR (oscillationsSlider D)
                    * (t / IZR (oscillationsSlider D))) ->
             fst (sp_addReading D rnd s)
             = mk_sp_state (sp_renumber 0 (sp_sort (sp_readings s ++ [r])))
                 (sp_mode s) (sp_gravity s)).
  { intros D rnd L t r Hm Hnew ->. unfold sp_addReading. rewrite Hm.
    destruct (sp_has_length L (sp_readings s)) eqn:Hhas; [|reflexivity].
    exfalso. apply Hnew. apply sp_has_length_In. exact Hhas. }
  assert (Hsecond : forall (D : sp_dom) (rnd L t : R) (r r' : sp_reading),
             sp_measure D rnd s = inr (L, t) ->
             ~ In L (map sp_L (sp_readings s)) -> sp_L r' <> L ->
             r = mk_sp_reading 0 L t (t / IZR (oscillationsSlider D))
                   (t / IZR (oscillationsSlider D)
                    * (t / IZR (oscillationsSlider D))) ->
             let s' := mk_sp_state
                         (sp_renumber 0 (sp_sort (sp_readings s ++ [r'])))
                         (sp_mode s) (sp_gravity s) in
             fst (sp_addReading D rnd s')
             = mk_sp_state (sp_renumber 0 (sp_sort (sp_readings s' ++ [r])))
                 (sp_mode s) (sp_gravity s)).
  { intros D rnd L t r r' Hm Hnew Hne -> s'. unfold sp_addReading.
    rewrite (sp_measure_frame D rnd s s') by reflexivity. rewrite Hm.
    destruct (sp_has_length L (sp_readings s')) eqn:Hhas; [|reflexivity].
    exfalso. apply sp_has_length_In in Hhas. unfold s' in Hhas.
    cbn [sp_readings] in Hhas. rewrite sp_renumber_L in Hhas.
    apply (Permutation_in L
             (Permutation_map sp_L (sp_sort_perm (sp_readings s ++ [r']))))
      in Hhas.
    rewrite map_app in Hhas. apply in_app_or in Hhas.
    destruct Hhas as [Hin|[E|[]]]; [exact (Hnew Hin) | exact (Hne E)]. }
  rewrite (Hfirst D1 rnd1 L1 t1 ra Hm1 Hnew1 eq_refl).
  rewrite (Hfirst D2 rnd2 L2 t2 rb Hm2 Hnew2 eq_refl).
  rewrite (Hsecond D2 rnd2 L2 t2 rb ra Hm2 Hnew2 Hdiff eq_refl).
  rewrite (Hsecond D1 rnd1 L1 t1 ra rb Hm1 Hnew1
             (fun E => Hdiff (eq_sym E)) eq_refl).
  cbn [sp_readings]. f_equal.
  apply sp_push_twice; assumption.
Qed.

Lemma sp_insertion_order_irrelevant_witness :
  fst (sp_addReading (mk_sp_dom 10 2 None None) 0.5
         (fst (sp_addReading (mk_sp_dom 10 1 None None) 0.25
                 (mk_sp_state [] simulation 9.81))))
  = fst (sp_addReading (mk_sp_dom 10 1 None None) 0.25
           (fst (sp_addReading (mk_sp_dom 10 2 None None) 0.5
                   (mk_sp_state [] simulation 9.81)))).
Proof.
  eapply (sp_insertion_order_irrelevant (mk_sp_state [] simulation 9.81)
            (mk_sp_dom 10 1 None None) (mk_sp_dom 10 2 None None)
            0.25 0.5 1 _ 2 _).
  - constructor.
  - reflexivity.
  - reflexivity.
  - simpl. intros H. exact H.
  - simpl. intros H. exact H.
  - lra.
Defined.

(** X9.  An accepted insertion keeps the measured data (L, t, T, T2) of every
    reading stored before and adds exactly one row, that of the new
    measurement with T = t / n and T2 = T * T; only sequence numbers
    change. *)
Theorem sp_insertion_keeps_data (D : sp_dom) (rnd : R) (s : sp_state)
    (L t_measured : R)
    (Hm : sp_measure D rnd s = inr (L, t_measured))
    (Hnew : ~ In L (map sp_L (sp_readings s))) :
  let T := t_measured / IZR (oscillationsSlider D) in
  Permutation (map sp_data (sp_readings (fst (sp_addReading D rnd s))))
    ((L, t_measured, T, T * T) :: map sp_data (sp_readings s)).
Proof.
  intros T. unfold sp_addReading. rewrite Hm.
  destruct (sp_has_length L (sp_readings s)) eqn:Hhas.
  - exfalso. apply Hnew. apply sp_has_length_In. exact Hhas.
  - cbn [fst sp_readings].
    exact (sp_push_data (sp_readings s)
             (mk_sp_reading 0 L t_measured T (T * T))).
Qed.

Lemma sp_insertion_keeps_data_witness :
  Permutation
    (map sp_data
       (sp_readings
          (fst (sp_addReading (mk_sp_dom 10 1 (Some 1) (Some 20)) 0
                  (mk_sp_state [] manual 9.81)))))
    [(1, 20, 20 / 10, 20 / 10 * (20 / 10))].
Proof.
  apply (sp_insertion_keeps_data (mk_sp_dom 10 1 (Some 1) (Some 20)) 0
           (mk_sp_state [] manual 9.81) 1 20).
  - unfold sp_measure. simpl.
    destruct (Rle_dec 1 0) as [H|_]; [lra|].
    destruct (Rle_dec 20 0) as [H|_]; [lra | reflexivity].
  - simpl. intros H. exact H.
Defined.

Lemma sp_step_gravity (s : sp_state) (e : sp_event) :
  sp_event_ok e -> 0 < sp_gravity s -> 0 < sp_gravity (sp_step s e).
Proof.
  intros Hok Hg. destruct e as [rnd|mode|[|g] rnd|D rnd]; simpl in *.
  - destruct Hok. lra.
  - exact Hg.
  - destruct Hok. lra.
  - exact Hok.
  - destruct (sp_addReading_cases D rnd s) as [[msg E]|[r [_ E]]];
      rewrite E; exact Hg.
Qed.

(** X10.  A pendulum session starts with a gravity in [5, 20) and, as long as
    random draws are in [0, 1) and every named environment has a positive
    gravity, its gravity stays positive through every event; so
    [sp_updatePendulumAnimation] never takes its early exit. *)
Theorem sp_session_gravity_positive (rnd0 : R) (es : list sp_event)
    (D : sp_dom)
    (H0 : is_random rnd0) (Hok : Forall sp_event_ok es) :
  5 <= sp_gravity (initPendulumExperiment rnd0) < 20
  /\ 0 < sp_gravity (sp_run (initPendulumExperiment rnd0) es)
  /\ sp_updatePendulumAnimation D (sp_run (initPendulumExperiment rnd0) es)
     <> None.
Proof.
  assert (Hinit : 5 <= sp_gravity (initPendulumExperiment rnd0) < 20)
    by (destruct H0; simpl; lra).
  assert (Hrun : forall s, 0 < sp_gravity s -> 0 < sp_gravity (sp_run s es)).
  { unfold sp_run. induction Hok as [|e es He _ IH]; intros s Hs;
      [exact Hs|].
    simpl. apply IH. apply sp_step_gravity; assumption. }
  assert (Hpos : 0 < sp_gravity (sp_run (initPendulumExperiment rnd0) es))
    by (apply Hrun; lra).
  split; [exact Hinit|]. split; [exact Hpos|].
  unfold sp_updatePendulumAnimation.
  destruct (Rle_dec _ 0) as [Hle|_]; [lra | discriminate].
Qed.

Lemma sp_session_gravity_positive_witness :
  0 < sp_gravity
        (sp_run (initPendulumExperiment 0.5)
           [SpEnvironment (env_fixed 1.62) 0; SpSetMode manual;
            SpAddReading (mk_sp_dom 10 1 (Some 1) (Some 20)) 0.5]).
Proof.
  assert (H0 : is_random 0.5) by (unfold is_random; lra).
  assert (Hok : Forall sp_event_ok
                  [SpEnvironment (env_fixed 1.62) 0; SpSetMode manual;
                   SpAddReading (mk_sp_dom 10 1 (Some 1) (Some 20)) 0.5]).
  { repeat constructor; simpl; lra. }
  destruct (sp_session_gravity_positive 0.5 _ (mk_sp_dom 10 1 None None)
              H0 Hok) as (_ & Hpos & _).
  exact Hpos.
Defined.

Lemma Math_min_spec (xs : list R) :
  forall x0 : R,
  In (Math_min x0 xs) (x0 :: xs)
  /\ forall x : R, In x (x0 :: xs) -> Math_min x0 xs <= x.
Proof.
  unfold Math_min. induction xs as [|a xs IH]; intros x0.
  - simpl. split; [left; reflexivity|]. intros x [<-|[]]. lra.
  - cbn [fold_left]. destruct (IH (Rmin x0 a)) as [Hin Hle]. split.
    + destruct Hin as [E|Hin]; [|right; right; exact Hin].
      rewrite <- E. unfold Rmin. destruct (Rle_dec x0 a);
        [left; reflexivity | right; left; reflexivity].
    + intros x [<-|[<-|Hx]].
      * apply Rle_trans with (Rmin x0 a);
          [apply Hle; left; reflexivity | apply Rmin_l].
      * apply Rle_trans with (Rmin x0 a);
          [apply Hle; left; reflexivity | apply Rmin_r].
      * apply Hle. right. exact Hx.
Qed.

Lemma Math_max_spec (xs : list R) :
  forall x0 : R,
  In (Math_max x0 xs) (x0 :: xs)
  /\ forall x : R, In x (x0 :: xs) -> x <= Math_max x0 xs.
Proof.
  unfold Math_max. induction xs as [|a xs IH]; intros x0.
  - simpl. split; [left; reflexivity|]. intros x [<-|[]]. lra.
  - cbn [fold_left]. destruct (IH (Rmax x0 a)) as [Hin Hle]. split.
    + destruct Hin as [E|Hin]; [|right; right; exact Hin].
      rewrite <- E. unfold Rmax. destruct (Rle_dec x0 a);
        [right; left; reflexivity | left; reflexivity].
    + intros x [<-|[<-|Hx]].
      * apply Rle_trans with (Rmax x0 a);
          [apply Rmax_l | apply Hle; left; reflexivity].
      * apply Rle_trans with (Rmax x0 a);
          [apply Rmax_r | apply Hle; left; reflexivity].
      * apply Hle. right. exact Hx.
Qed.

(** X11.  With at least two readings the best-fit dataset of the chart is a
    segment of the fitted line whose two end points sit at the smallest and
    the largest stored T2, so that it spans every data point; its abscissae
    are T2 values of stored readings. *)
Theorem sp_bestFit_spans (s : sp_state)
    (Hlen : (2 <= length (sp_readings s))%nat) :
  let fit := linearRegression (map sp_T2 (sp_readings s))
                              (map sp_L (sp_readings s)) in
  exists minX maxX : R,
    sp_bestFit s = [(minX, slope fit * minX + intercept fit);
                    (maxX, slope fit * maxX + intercept fit)]
    /\ In minX (map sp_T2 (sp_readings s))
    /\ In maxX (map sp_T2 (sp_readings s))
    /\ forall r : sp_reading, In r (sp_readings s) ->
       minX <= sp_T2 r <= maxX.
Proof.
  intros fit. unfold sp_bestFit. fold fit.
  apply Nat.leb_le in Hlen. rewrite Hlen.
  destruct (sp_readings s) as [|r0 rs] eqn:E; [discriminate|].
  cbn [map].
  destruct (Math_min_spec (map sp_T2 rs) (sp_T2 r0)) as [Hmin_in Hmin].
  destruct (Math_max_spec (map sp_T2 rs) (sp_T2 r0)) as [Hmax_in Hmax].
  exists (Math_min (sp_T2 r0) (map sp_T2 rs)),
         (Math_max (sp_T2 r0) (map sp_T2 rs)).
  split; [reflexivity|]. split; [exact Hmin_in|]. split; [exact Hmax_in|].
  intros r Hr. apply (in_map sp_T2) in Hr. cbn [map] in Hr.
  split; [apply Hmin | apply Hmax]; exact Hr.
Qed.

Lemma sp_bestFit_spans_witness :
  exists minX maxX : R,
    In minX [4; 1] /\ In maxX [4; 1]
    /\ forall r : sp_reading,
       In r [mk_sp_reading 1 1 4 2 4; mk_sp_reading 2 2 2 1 1] ->
       minX <= sp_T2 r <= maxX.
Proof.
  destruct (sp_bestFit_spans
              (mk_sp_state [mk_sp_reading 1 1 4 2 4; mk_sp_reading 2 2 2 1 1]
                 manual 0) (le_n 2))
    as (minX & maxX & _ & Hmin & Hmax & Hspan).
  exists minX, maxX. split; [exact Hmin|]. split; [exact Hmax | exact Hspan].
Defined.

(** ** Further properties of the flywheel session *)

Lemma fw_invalid_distinct :
  fw_invalid_msg <> fw_params_msg /\ fw_invalid_msg <> fw_nonphysical_msg
  /\ fw_invalid_msg <> fw_light_msg.
Proof. repeat split; intros H; inversion H. Qed.

(** A notification of the measuring half comes out unchanged, and the
    estimating half has its own two messages. *)
Lemma fw_addReading_message (g : R) (D : fw_dom) (rnd1 rnd2 : R)
    (s : fw_state) (msg : string) :
  msg <> fw_params_msg -> msg <> fw_nonphysical_msg ->
  (snd (fw_addReading_at g D rnd1 rnd2 s) = Some msg
   <-> fw_measure g D rnd1 rnd2 s = inl msg).
Proof.
  intros Hp Hn. unfold fw_addReading_at.
  destruct (fw_measure g D rnd1 rnd2 s) as [msg'|[[m_kg t] n2]].
  - simpl. split; intros H; congruence.
  - unfold fw_estimateInertia. destruct (Req_dec_T _ 0).
    + simpl. split; intros H; [exfalso; apply Hp; congruence | discriminate].
    + destruct (Rle_dec _ 0); simpl; split; intros H;
        try discriminate; exfalso; apply Hn; congruence.
Qed.

(** X12.  In manual mode [fw_addReading] answers "Please enter valid positive
    numbers." exactly when one of the three fields is not a number or the
    mass in kg, the fall time or the rotation count is not strictly
    positive; it then leaves the state as it is.  Otherwise the three values
    are taken as they are, the mass converted from grams. *)
Theorem fw_manual_validation (D : fw_dom) (rnd1 rnd2 : R) (s : fw_state)
    (Hmode : fw_mode s = manual) :
  (fw_manual_invalid D
   <-> fw_addReading D rnd1 rnd2 s = (s, Some fw_invalid_msg))
  /\ (~ fw_manual_invalid D ->
      exists mass t n2 : R,
        manualMass D = Some mass /\ manualT D = Some t
        /\ manualN2 D = Some n2
        /\ 0 < mass / 1000 /\ 0 < t /\ 0 < n2
        /\ fw_measure G_ACCELERATION D rnd1 rnd2 s
           = inr (mass / 1000, t, n2)).
Proof.
  destruct fw_invalid_distinct as (Hp & Hn & _).
  assert (Hiff : fw_addReading D rnd1 rnd2 s = (s, Some fw_invalid_msg)
                 <-> fw_measure G_ACCELERATION D rnd1 rnd2 s
                     = inl fw_invalid_msg).
  { rewrite <- (fw_addReading_message G_ACCELERATION D rnd1 rnd2 s
                  fw_invalid_msg Hp Hn).
    unfold fw_addReading. split; intros H; [rewrite H; reflexivity|].
    destruct (fw_addReading_cases G_ACCELERATION D rnd1 rnd2 s)
      as [[msg E]|(m' & t' & n2' & I' & _ & _ & E)]; rewrite E in *;
      simpl in H; congruence. }
  rewrite Hiff. unfold fw_manual_invalid, fw_measure. rewrite Hmode.
  destruct (manualMass D) as [mass|];
    [|split; [split; [reflexivity | exact (fun _ => I)]
             | intros H; exfalso; exact (H I)]].
  destruct (manualT D) as [t|];
    [|split; [split; [reflexivity | exact (fun _ => I)]
             | intros H; exfalso; exact (H I)]].
  destruct (manualN2 D) as [n2|];
    [|split; [split; [reflexivity | exact (fun _ => I)]
             | intros H; exfalso; exact (H I)]].
  destruct (Rle_dec (mass / 1000) 0) as [Hm|Hm].
  { split; [split; [reflexivity | intros _; left; exact Hm]|].
    intros H. exfalso. apply H. left. exact Hm. }
  destruct (Rle_dec t 0) as [Ht|Ht].
  { split; [split; [reflexivity | intros _; right; left; exact Ht]|].
    intros H. exfalso. apply H. right. left. exact Ht. }
  destruct (Rle_dec n2 0) as [Hn2|Hn2].
  { split; [split; [reflexivity | intros _; right; right; exact Hn2]|].
    intros H. exfalso. apply H. right. right. exact Hn2. }
  split.
  - split; [intros [H|[H|H]]; contradiction | discriminate].
  - intros _. exists mass, t, n2. repeat split; lra.
Qed.

Lemma fw_manual_validation_witness :
  fw_addReading (mk_fw_dom 5 5 50 (Some 50) None (Some 2)) 0 0
    (fw_setMode manual (initFlywheelExperiment FLYWHEEL_MODELS key_A 0 0))
  = (fw_setMode manual (initFlywheelExperiment FLYWHEEL_MODELS key_A 0 0),
     Some fw_invalid_msg).
Proof.
  destruct (fw_manual_validation
              (mk_fw_dom 5 5 50 (Some 50) None (Some 2)) 0 0
              (fw_setMode manual
                 (initFlywheelExperiment FLYWHEEL_MODELS key_A 0 0))
              eq_refl) as [[Hfail _] _].
  apply Hfail. exact I.
Defined.

(** X13.  In simulation mode with positive mass, radius, inertia and friction
    torque, "Mass is too light." is the answer exactly when the torque of
    the weight on the axle does not exceed the friction torque:
    m g r <= Tf. *)
Theorem fw_mass_too_light_iff (D : fw_dom) (rnd1 rnd2 : R) (s : fw_state)
    (Hmode : fw_mode s = simulation)
    (Hmass : 0 < massSlider D) (Hradius : 0 < radiusSlider D)
    (HI : 0 < model_I (fw_model s)) (HTf : 0 < model_Tf (fw_model s)) :
  snd (fw_addReading D rnd1 rnd2 s) = Some fw_light_msg
  <-> massSlider D / 1000 * G_ACCELERATION * (radiusSlider D / 100)
      <= model_Tf (fw_model s).
Proof.
  destruct fw_messages_distinct as (Hp & Hn & _).
  unfold fw_addReading.
  rewrite (fw_addReading_message G_ACCELERATION D rnd1 rnd2 s fw_light_msg
             Hp Hn).
  unfold fw_measure. rewrite Hmode. unfold fw_acceleration.
  set (m_kg := massSlider D / 1000). set (r_m := radiusSlider D / 100).
  set (Im := model_I (fw_model s)) in *.
  set (Tf := model_Tf (fw_model s)) in *.
  assert (Hm : 0 < m_kg) by (unfold m_kg; lra).
  assert (Hr : 0 < r_m) by (unfold r_m; lra).
  assert (Hrr : 0 < r_m * r_m) by (apply Rmult_lt_0_compat; exact Hr).
  assert (Hden : 0 < m_kg + Im / (r_m * r_m)).
  { assert (0 < Im / (r_m * r_m))
      by (apply Rmult_lt_0_compat; [|apply Rinv_0_lt_compat]; assumption).
    lra. }
  assert (Hnum : m_kg * G_ACCELERATION - Tf / r_m
                 = (m_kg * G_ACCELERATION * r_m - Tf) / r_m)
    by (field; lra).
  assert (Hsign : (m_kg * G_ACCELERATION - Tf / r_m)
                  / (m_kg + Im / (r_m * r_m)) <= 0
                  <-> m_kg * G_ACCELERATION * r_m <= Tf).
  { rewrite Hnum.
    set (N := m_kg * G_ACCELERATION * r_m - Tf).
    assert (Hinv : 0 < / r_m * / (m_kg + Im / (r_m * r_m))).
    { apply Rmult_lt_0_compat; apply Rinv_0_lt_compat; assumption. }
    unfold Rdiv in Hinv |- *. rewrite Rmult_assoc.
    set (k := / r_m * / (m_kg + Im * / (r_m * r_m))) in *.
    split; intros H.
    - assert (HN : N <= 0).
      { destruct (Rle_lt_dec N 0) as [Hle|Hlt]; [exact Hle|].
        pose proof (Rmult_lt_0_compat N k Hlt Hinv). lra. }
      unfold N in HN. lra.
    - assert (HN : N <= 0) by (unfold N; lra).
      replace 0 with (0 * k) by ring.
      apply Rmult_le_compat_r; [left; exact Hinv | exact HN]. }
  destruct (Rle_dec _ 0) as [Hle|Hgt].
  - split; [intros _; apply Hsign; exact Hle | reflexivity].
  - split; [|intros H; exfalso; apply Hgt, Hsign; exact H].
    destruct (fw_simulateFall _ _ _ _ _) as [[t n2] w]. discriminate.
Qed.

Lemma fw_mass_too_light_iff_witness :
  snd (fw_addReading (mk_fw_dom 5 5 1 None None None) 0 0
         (initFlywheelExperiment FLYWHEEL_MODELS key_A 0 0))
  = Some fw_light_msg.
Proof.
  set (D := mk_fw_dom 5 5 1 None None None).
  set (s := initFlywheelExperiment FLYWHEEL_MODELS key_A 0 0).
  assert (Hmass : 0 < massSlider D) by (simpl; lra).
  assert (Hradius : 0 < radiusSlider D) by (simpl; lra).
  assert (HI : 0 < model_I (fw_model s)) by (simpl; lra).
  assert (HTf : 0 < model_Tf (fw_model s)) by (simpl; lra).
  apply (fw_mass_too_light_iff D 0 0 s eq_refl Hmass Hradius HI HTf).
  simpl. unfold G_ACCELERATION. lra.
Defined.

(** X15.  [fw_addReading] only ever appends: the readings stored before stay
    in place, unchanged and in order; at most one reading is added at the
    end, and none exactly when a notification is shown.  The model table,
    the mode and the selected model are left as they are. *)
Theorem fw_readings_append_only (D : fw_dom) (rnd1 rnd2 : R)
    (s : fw_state) :
  let s' := fst (fw_addReading D rnd1 rnd2 s) in
  exists added : list fw_reading,
    fw_readings s' = fw_readings s ++ added
    /\ (length added <= 1)%nat
    /\ (added = [] <-> snd (fw_addReading D rnd1 rnd2 s) <> None)
    /\ fw_table s' = fw_table s /\ fw_mode s' = fw_mode s
    /\ fw_key s' = fw_key s.
Proof.
  intros s'. unfold s', fw_addReading.
  destruct (fw_addReading_cases G_ACCELERATION D rnd1 rnd2 s)
    as [[msg E]|(m_kg & t & n2 & I_calc & _ & _ & E)]; rewrite E;
    cbn [fst snd fw_readings fw_table fw_mode fw_key].
  - exists []. rewrite app_nil_r. repeat split; auto; discriminate.
  - eexists. split; [reflexivity|]. split; [simpl; lia|].
    repeat split; try discriminate. intros H. exfalso. apply H. reflexivity.
Qed.

Lemma fw_addReading_frame (D : fw_dom) (rnd1 rnd2 : R) (s : fw_state) :
  fw_table (fst (fw_addReading D rnd1 rnd2 s)) = fw_table s
  /\ fw_key (fst (fw_addReading D rnd1 rnd2 s)) = fw_key s.
Proof.
  unfold fw_addReading.
  destruct (fw_addReading_cases G_ACCELERATION D rnd1 rnd2 s)
    as [[msg E]|(m_kg & t & n2 & I_calc & _ & _ & E)]; rewrite E;
    split; reflexivity.
Qed.

(** X16.  Throughout a flywheel session the presets A and B of the model
    table keep their declared values, and the model in use is preset A,
    preset B, or an unknown model whose inertia lies in [0.003, 0.018) and
    whose friction torque lies in [0.001, 0.006). *)
Theorem fw_session_model (s : fw_state) (Hreach : fw_reachable s) :
  entry_A (fw_table s) = mk_model 0.005 0.002
  /\ entry_B (fw_table s) = mk_model 0.015 0.004
  /\ match fw_key s with
     | key_A => fw_model s = mk_model 0.005 0.002
     | key_B => fw_model s = mk_model 0.015 0.004
     | key_unknown =>
         0.003 <= model_I (fw_model s) < 0.018
         /\ 0.001 <= model_Tf (fw_model s) < 0.006
     end.
Proof.
  assert (Hset : forall (k : ModelKey) (rnd1 rnd2 : R) (s0 : fw_state),
             is_random rnd1 -> is_random rnd2 ->
             entry_A (fw_table s0) = mk_model 0.005 0.002 ->
             entry_B (fw_table s0) = mk_model 0.015 0.004 ->
             let s1 := fw_setFlywheelModel k rnd1 rnd2 s0 in
             entry_A (fw_table s1) = mk_model 0.005 0.002
             /\ entry_B (fw_table s1) = mk_model 0.015 0.004
             /\ match fw_key s1 with
                | key_A => fw_model s1 = mk_model 0.005 0.002
                | key_B => fw_model s1 = mk_model 0.015 0.004
                | key_unknown =>
                    0.003 <= model_I (fw_model s1) < 0.018
                    /\ 0.001 <= model_Tf (fw_model s1) < 0.006
                end).
  { intros k rnd1 rnd2 s0 [H1 H1'] [H2 H2'] HA HB.
    destruct k; unfold fw_model; simpl; repeat split;
      try assumption; lra. }
  induction Hreach as [k rnd1 rnd2 H1 H2|s e _ IH Hok].
  - apply Hset; try assumption; reflexivity.
  - destruct IH as (HA & HB & Hk).
    destruct e as [k rnd1 rnd2|mode|k rnd1 rnd2|D rnd1 rnd2]; simpl in Hok.
    + destruct Hok. apply Hset; assumption.
    + split; [exact HA|]. split; [exact HB | exact Hk].
    + destruct Hok. apply Hset; assumption.
    + cbn [fw_step]. unfold fw_model.
      destruct (fw_addReading_frame D rnd1 rnd2 s) as [Et Ek].
      rewrite Et, Ek. split; [exact HA|]. split; [exact HB | exact Hk].
Qed.

Lemma fw_session_model_witness :
  0.003 <= model_I
             (fw_model
                (fw_step (initFlywheelExperiment FLYWHEEL_MODELS key_A 0 0)
                   (FwModel key_unknown 0.5 0.25))) < 0.018.
Proof.
  assert (Hreach : fw_reachable
                     (fw_step
                        (initFlywheelExperiment FLYWHEEL_MODELS key_A 0 0)
                        (FwModel key_unknown 0.5 0.25))).
  { apply fw_reach_step.
    - apply fw_reach_init; unfold is_random; lra.
    - simpl. unfold is_random. lra. }
  destruct (fw_session_model _ Hreach) as (_ & _ & Hk).
  apply Hk.
Defined.









(** X20.  The numbers [fw_animate] computes, for a non-zero axle radius: the
    final offset of the mass is 20 pi n1 + 20, whatever the radius; without
    a positive release velocity the wheel turns exactly as long as the mass
    falls; with one, and rotations n2 = I omega^2 / (2 Tf) / (2 pi) scaled
    by a factor f as [fw_addReading] passes them, the wheel turns on for
    I omega / Tf times f seconds after the fall. *)
Theorem fw_animate_durations (D : fw_dom) (t_fall n2 omega_max : R)
    (Hradius : radiusSlider D <> 0) :
  let A := fw_animate D t_fall n2 omega_max in
  final_pos A = 20 * PI * IZR (n1Slider D) + 20
  /\ (omega_max <= 0 -> wheel_duration A = mass_duration A)
  /\ (forall I Tf f : R,
        0 < omega_max -> Tf <> 0 ->
        n2 = (I * omega_max * omega_max) / (2 * Tf) / (2 * PI) * f ->
        wheel_duration A = (t_fall + I * omega_max / Tf * f) * 1000).
Proof.
  intros A. unfold A, fw_animate.
  cbn [final_pos wheel_duration mass_duration].
  pose proof PI_neq0 as Hpi. split; [|split].
  - replace 0.1 with (1 / 10) by lra. field. lra.
  - intros Hle. destruct (Rlt_dec 0 omega_max) as [Hlt|_]; [lra|].
    rewrite Rplus_0_r. reflexivity.
  - intros I Tf f Hpos HTf ->.
    destruct (Rlt_dec 0 omega_max) as [_|Hn]; [|contradiction].
    field. repeat split; lra.
Qed.

Lemma fw_animate_durations_witness :
  final_pos (fw_animate (mk_fw_dom 5 5 50 None None None) 1 2 3)
  = 20 * PI * 5 + 20.
Proof.
  assert (Hradius : radiusSlider (mk_fw_dom 5 5 50 None None None) <> 0)
    by (simpl; lra).
  destruct (fw_animate_durations (mk_fw_dom 5 5 50 None None None) 1 2 3
              Hradius) as [Hpos _].
  exact Hpos.
Defined.

(** ** What r2 measures *)




(** ** Where binary64 departs from exact arithmetic *)

Section Binary64.

Import PrimFloat.
Local Open Scope float_scope.

Lemma F64_linearRegression_exact_example :
  F64.linearRegression [1; 2; 3] [2; 4; 6] = F64.mkRegression 2 0 1
  /\ F64.linearRegression [] [] = F64.mkRegression 0 0 0
  /\ F64.linearRegression [5; 5; 5] [1; 2; 3] = F64.mkRegression 0 0 0.
Proof. vm_compute. repeat split; reflexivity. Qed.

(** C4.  Over binary64 the test [denominator === 0] misses inputs whose x
    are all equal.  Three manual readings with the same measured time, 7 s
    over 10 oscillations at the lengths 1, 2 and 3, all have the period
    squared 0.7 * 0.7; on them [linearRegression] computes the denominator
    -4.44e-16 and returns slope -0, intercept 2 and r2 NaN, not the neutral
    value.  On six points at x = 0.1 it returns the slope 16. *)
Theorem linearRegression_equal_x_not_neutral :
  F64.linearRegression [7 / 10 * (7 / 10); 7 / 10 * (7 / 10);
                        7 / 10 * (7 / 10)] [1; 2; 3]
  = F64.mkRegression (-0) 2 nan
  /\ F64.slope
       (F64.linearRegression
          [1 / 10; 1 / 10; 1 / 10; 1 / 10; 1 / 10; 1 / 10]
          [1; 2; 3; 4; 5; 6])
     = 16.
Proof. vm_compute. split; reflexivity. Qed.

(** C10.  Over binary64 the guard [I_calc <= 0] lets a NaN through.  In
    manual mode, with the radius slider at 5, the windings at 5 and model A
    (I = 0.005, Tf = 0.002), the entries mass 50, fall time 40 and rotations
    1e308 pass the validation; both terms of the inverse formula overflow to
    infinity, their quotient is NaN, no notification is shown and the
    reading is stored with the inertia NaN, which is not greater than 0;
    [fw_updateUI] then shows NaN. *)
Theorem fw_addReading_stores_NaN :
  let D := F64.mk_fw_dom 5 5 50 50 40 0x1.1ccf385ebc8ap+1023 in
  let s := F64.mk_fw_state [] manual 0x1.47ae147ae147bp-8
             0x1.0624dd2f1a9fcp-9 in
  let s' := fst (F64.fw_addReading D 0.5 0.5 s) in
  F64.fw_measure D 0.5 0.5 s = inr (50 / 1000, 40, 0x1.1ccf385ebc8ap+1023)
  /\ snd (F64.fw_addReading D 0.5 0.5 s) = None
  /\ map F64.fw_I (F64.fw_readings s') = [nan]
  /\ map (fun r => 0 <? F64.fw_I r) (F64.fw_readings s') = [false]
  /\ F64.fw_updateUI s' = Some nan.
Proof. vm_compute. repeat split; reflexivity. Qed.

End Binary64.
